(** * file-share: session relay and chunked transfer protocol

    A shallow embedding of the socket relay (the [create-session],
    [join-session], [file-meta], [file-chunk], [transfer-complete] and
    [disconnect] handlers with [cleanupSession] and the expiry timer) and of
    the client's sender and receiver logic in [pages/index.tsx]
    ([sendFiles] and the socket listeners), with the properties of the
    specification stated over them; then the other handlers of the page
    ([handleFileSelect], [removeFile], [downloadFile], [handleReceive],
    the labels) and a transfer taken from the sender through the relay. *)

From Stdlib Require Import ZArith QArith Lia.
From stdpp Require Import base gmap strings list fin_maps pretty.

Open Scope Z_scope.

(** ** JavaScript numbers that travel as the progress tag

    The progress tag is the result of a division and a multiplication of
    byte counts.  Finite values are kept as exact rationals (the rounding
    of IEEE doubles is not modelled); the two special results a division
    by zero can give are kept apart. *)

Inductive jsnum :=
| JNum (q : Q)
| JInf
| JNaN.

(** [a / b] on non-negative integers. *)
Definition js_div (a b : Z) : jsnum :=
  if Z.eqb b 0 then (if Z.eqb a 0 then JNaN else JInf)
  else JNum (inject_Z a / inject_Z b)%Q.

(** [x * k] for a positive integer constant [k]. *)
Definition js_mul (x : jsnum) (k : Z) : jsnum :=
  match x with
  | JNum q => JNum (q * inject_Z k)%Q
  | JInf => JInf
  | JNaN => JNaN
  end.

(** [x <= y]: every comparison with NaN is false. *)
Definition js_le (x y : jsnum) : Prop :=
  match x, y with
  | JNum p, JNum q => (p <= q)%Q
  | JNum _, JInf => True
  | JInf, JInf => True
  | _, _ => False
  end.


(** [x] and [y] are the same number (NaN being the same as NaN). *)
Definition js_same (x y : jsnum) : bool :=
  match x, y with
  | JNum p, JNum q => Qeq_bool p q
  | JInf, JInf => true
  | JNaN, JNaN => true
  | _, _ => false
  end.

(** ** The relay server *)

Module Server.

Definition SESSION_TIMEOUT : Z := 300000.
Definition MAX_FILE_SIZE : Z := 1024 * 1024 * 1024 * 2.

(** Entries of the [sessions] map: the owner's socket id and the handle of
    the pending expiry timeout. *)
Record session := Session { socketId : string; timeout : nat }.

(** A pending timeout of the event loop.  Its callback is the closure made
    in the [create-session] handler, which captures [socket] and [code];
    it becomes due [SESSION_TIMEOUT] ms after it was set. *)
Record timer := Timer { t_socket : string; t_code : string; t_deadline : Z }.

(** Events sent by the server. *)
Inductive event :=
| session_created (code : string)
| invalid_session
| receiver_joined
| file_meta (name : string) (size : Z) (type : string)
| file_chunk (chunk : list Byte.byte) (progress : jsnum)
| transfer_complete
| session_expired
| error (msg : string).

(** [socket.emit(e)] answers the socket itself; [socket.to(room).emit(e)]
    goes to the members of [room] other than the socket. *)
Inductive output :=
| Emit (to : string) (e : event)
| ToRoom (from : string) (room : string) (e : event).

Record state := State {
  sessions : gmap string session;
  timers : gmap nat timer;
  next_timer : nat;
  rooms : gmap string (gset string);
  uploads : list string;
  now : Z
}.

(** The server starts with an empty registry; [ups] is what the uploads
    directory holds. *)
Definition init (ups : list string) : state :=
  {| sessions := ∅; timers := ∅; next_timer := 0%nat; rooms := ∅;
     uploads := ups; now := 0 |}.

Definition members (room : string) (st : state) : gset string :=
  default ∅ (rooms st !! room).

Definition recipients (o : output) (st : state) : gset string :=
  match o with
  | Emit to _ => {[ to ]}
  | ToRoom from room _ => members room st ∖ {[ from ]}
  end.

(** [file.startsWith(sessionCode)], on the names that [readdirSync] lists
    for the uploads directory; [unlinkSync] on a listed name is taken to
    succeed. *)
Definition startsWith (file sessionCode : string) : bool :=
  String.prefix sessionCode file.

Definition cleanupSession (sessionCode : string) (st : state) : state :=
  match sessions st !! sessionCode with
  | Some session =>
      {| sessions := delete sessionCode (sessions st);
         timers := delete (timeout session) (timers st);
         next_timer := next_timer st;
         rooms := rooms st;
         uploads :=
           List.filter (fun file => negb (startsWith file sessionCode))
                       (uploads st);
         now := now st |}
  | None => st
  end.

(** [socket.join(room)] *)
Definition join (sock room : string) (rs : gmap string (gset string))
  : gmap string (gset string) :=
  <[ room := {[ sock ]} ∪ default ∅ (rs !! room) ]> rs.

(** A closed socket is removed from every room. *)
Definition leave_all (sock : string) (rs : gmap string (gset string))
  : gmap string (gset string) :=
  (fun ms => ms ∖ {[ sock ]}) <$> rs.

Definition create_session (sock code : string) (st : state)
  : state * list output :=
  let st1 := cleanupSession code st in
  let tid := next_timer st1 in
  ({| sessions := <[ code := Session sock tid ]> (sessions st1);
      timers :=
        <[ tid := Timer sock code (now st1 + SESSION_TIMEOUT) ]> (timers st1);
      next_timer := S tid;
      rooms := join sock code (rooms st1);
      uploads := uploads st1;
      now := now st1 |},
   [Emit sock (session_created code)]).

Definition join_session (sock sessionCode : string) (st : state)
  : state * list output :=
  match sessions st !! sessionCode with
  | None => (st, [Emit sock invalid_session])
  | Some _ =>
      ({| sessions := sessions st; timers := timers st;
          next_timer := next_timer st;
          rooms := join sock sessionCode (rooms st);
          uploads := uploads st; now := now st |},
       [ToRoom sock sessionCode receiver_joined])
  end.

Definition on_file_meta (sock name : string) (size : Z) (type : string)
    (sessionCode : string) (st : state) : state * list output :=
  match sessions st !! sessionCode with
  | None => (st, [Emit sock invalid_session])
  | Some _ =>
      if Z.ltb MAX_FILE_SIZE size
      then (st, [Emit sock (error "File size exceeds 2GB limit")])
      else (st, [ToRoom sock sessionCode (file_meta name size type)])
  end.

Definition on_file_chunk (sock : string) (chunk : list Byte.byte)
    (sessionCode : string) (progress : jsnum) (st : state)
  : state * list output :=
  match sessions st !! sessionCode with
  | None => (st, [Emit sock invalid_session])
  | Some _ => (st, [ToRoom sock sessionCode (file_chunk chunk progress)])
  end.

Definition on_transfer_complete (sock sessionCode : string) (st : state)
  : state * list output :=
  match sessions st !! sessionCode with
  | Some _ =>
      (cleanupSession sessionCode st,
       [ToRoom sock sessionCode transfer_complete])
  | None => (st, [])
  end.

(** The loop of the [disconnect] handler over [sessions.entries()]. *)
Definition disconnect_loop (sock : string)
    (entries : list (string * session)) (st : state) : state :=
  foldl (fun st cs =>
           if decide (socketId cs.2 = sock)
           then cleanupSession cs.1 st else st)
        st entries.

Definition on_disconnect (sock : string) (st : state) : state * list output :=
  let st0 :=
    {| sessions := sessions st; timers := timers st;
       next_timer := next_timer st;
       rooms := leave_all sock (rooms st);
       uploads := uploads st; now := now st |} in
  (disconnect_loop sock (map_to_list (sessions st0)) st0, []).

(** The expiry callback set by [create-session]; the timeout is one-shot
    and is no longer pending when its callback runs. *)
Definition expire (tid : nat) (tm : timer) (st : state)
  : state * list output :=
  let st1 :=
    {| sessions := sessions st; timers := delete tid (timers st);
       next_timer := next_timer st; rooms := rooms st;
       uploads := uploads st; now := now st |} in
  (cleanupSession (t_code tm) st1,
   [ToRoom (t_socket tm) (t_code tm) session_expired]).

(** What the event loop can dispatch. *)
Inductive input :=
| CreateSession (sock code : string)
| JoinSession (sock code : string)
| FileMeta (sock name : string) (size : Z) (type : string) (code : string)
| FileChunk (sock : string) (chunk : list Byte.byte) (code : string)
            (progress : jsnum)
| TransferComplete (sock code : string)
| Disconnect (sock : string)
| TimerFires (tid : nat)
| Elapse (dt : Z).

(** One turn of the event loop.  [None]: the event cannot occur (only a
    pending timeout that is due fires; time does not run backwards). *)
Definition step (i : input) (st : state) : option (state * list output) :=
  match i with
  | CreateSession sock code => Some (create_session sock code st)
  | JoinSession sock code => Some (join_session sock code st)
  | FileMeta sock name size type code =>
      Some (on_file_meta sock name size type code st)
  | FileChunk sock chunk code progress =>
      Some (on_file_chunk sock chunk code progress st)
  | TransferComplete sock code => Some (on_transfer_complete sock code st)
  | Disconnect sock => Some (on_disconnect sock st)
  | TimerFires tid =>
      match timers st !! tid with
      | Some tm =>
          if Z.leb (t_deadline tm) (now st) then Some (expire tid tm st)
          else None
      | None => None
      end
  | Elapse dt =>
      if Z.leb 0 dt
      then Some ({| sessions := sessions st; timers := timers st;
                    next_timer := next_timer st; rooms := rooms st;
                    uploads := uploads st; now := now st + dt |}, [])
      else None
  end.

(** A run: the inputs are dispatched in order, the outputs accumulate. *)
Fixpoint run (ins : list input) (st : state)
  : option (state * list output) :=
  match ins with
  | [] => Some (st, [])
  | i :: ins' =>
      match step i st with
      | Some (st1, out1) =>
          match run ins' st1 with
          | Some (st2, out2) => Some (st2, out1 ++ out2)
          | None => None
          end
      | None => None
      end
  end.

Definition reachable (st : state) : Prop :=
  ∃ ups ins out, run ins (init ups) = Some (st, out).

(** The registry and the pending timeouts mirror each other: every live
    session has its own pending timeout, whose callback is for that code
    and owner, and every pending timeout belongs to a live session. *)
Record inv (st : state) : Prop := Inv {
  inv_session_timer : ∀ c s, sessions st !! c = Some s →
    ∃ d, timers st !! timeout s = Some (Timer (socketId s) c d);
  inv_timer_session : ∀ t tm, timers st !! t = Some tm →
    sessions st !! t_code tm = Some (Session (t_socket tm) t);
  inv_fresh : ∀ t tm, timers st !! t = Some tm → (t < next_timer st)%nat
}.

(** The owner of a live session is a member of the room of its code. *)
Definition owners_in_rooms (st : state) : Prop :=
  ∀ c s, sessions st !! c = Some s → socketId s ∈ members c st.

(** The socket whose handler an input runs; a timeout and the passing of
    time come from no socket. *)
Definition input_socket (i : input) : option string :=
  match i with
  | CreateSession sock _ | JoinSession sock _ | FileMeta sock _ _ _ _
  | FileChunk sock _ _ _ | TransferComplete sock _ | Disconnect sock =>
      Some sock
  | TimerFires _ | Elapse _ => None
  end.

(** The inputs of a transfer under way: a join, an announcement, a chunk. *)
Definition is_traffic (i : input) : bool :=
  match i with
  | JoinSession _ _ | FileMeta _ _ _ _ _ | FileChunk _ _ _ _ => true
  | _ => false
  end.

(** The event that an output carries. *)
Definition output_event (o : output) : event :=
  match o with Emit _ e | ToRoom _ _ e => e end.

(** ** Example runs *)

(** Socket [sA] has created the session [ABC12345]. *)
Definition ex_uploads : list string :=
  ["ABC12345-a.txt"; "ABC1"; "XYZ00000-b.bin"].

Definition ex_created : state :=
  (create_session "sA" "ABC12345" (init ex_uploads)).1.

(** ... and socket [sB] has joined it. *)
Definition ex_joined : state :=
  (join_session "sB" "ABC12345" ex_created).1.

(** ... and the five minutes have passed. *)
Definition ex_due : state :=
  State (sessions ex_joined) (timers ex_joined) (next_timer ex_joined)
        (rooms ex_joined) (uploads ex_joined) (now ex_joined + SESSION_TIMEOUT).

End Server.

(** ** The client: sender and receiver logic of the page component *)

Module Client.

Definition CHUNK_SIZE : Z := 64 * 1024.
Definition MAX_FILE_SIZE : Z := 1024 * 1024 * 1024 * 2.

(** A [File] (a [Blob] with a name): its bytes, [size] being their count. *)
Record File := { f_name : string; f_type : string; f_data : list Byte.byte }.

Definition byteLength (b : list Byte.byte) : Z := Z.of_nat (length b).

Definition f_size (f : File) : Z := byteLength (f_data f).

(** [Blob.slice(start, end)]: a negative position counts from the end,
    positions are clamped to the blob, an empty span gives an empty blob. *)
Definition slice (data : list Byte.byte) (start end_ : Z) : list Byte.byte :=
  let size := byteLength data in
  let rel x := if Z.ltb x 0 then Z.max (size + x) 0 else Z.min x size in
  let span := Z.max (rel end_ - rel start) 0 in
  take (Z.to_nat span) (drop (Z.to_nat (rel start)) data).

Inductive file_status := pending | transferring | completed | error.

Inductive TransferStatus :=
| ts_idle | ts_waiting | ts_transferring | ts_completed | ts_error.

Record FileData := {
  id : string;
  name : string;
  size : Z;
  type : string;
  file : option File;
  received : option Z;
  chunks : option (list (list Byte.byte));
  status : option file_status
}.

(** The speed label: the text around a number printed with one decimal. *)
Inductive speed_label :=
| zero_KBs
| MBs (x : Q)
| KBs (x : Q).

Record progress_entry := { bytes : Z; total : Z; speed : speed_label }.

Record status_line := { message : string; st_type : TransferStatus }.

(** The state of the component that the socket listeners and [sendFiles]
    read and write ([speedRef] and the connection flag of the socket
    included; the purely visual flags are left out). *)
Record app := App {
  sessionCode : string;
  app_status : status_line;
  files : list FileData;
  transferProgress : gmap string progress_entry;
  peerConnected : bool;
  speedRef : Z * Z;
  connected : bool
}.

(** The values of the first render. *)
Definition initial : app :=
  {| sessionCode := "";
     app_status := {| message := "Select files to begin"; st_type := ts_idle |};
     files := []; transferProgress := ∅; peerConnected := false;
     speedRef := (0, 0); connected := true |}.

(** [calculateSpeed(bytes, startTime)], [now] being what [Date.now()]
    returns inside it. *)
Definition calculateSpeed (now bytes startTime : Z) : speed_label :=
  let elapsed := (inject_Z (now - startTime) / 1000)%Q in
  if Qle_bool elapsed 0 then zero_KBs
  else
    let speed := (inject_Z bytes / elapsed)%Q in
    if Qle_bool (inject_Z (1024 * 1024)) speed
    then MBs (speed / inject_Z (1024 * 1024))%Q
    else KBs (speed / 1024)%Q.

(** *** Receiver *)

(** The bindings [files] and [transferProgress] that a listener closes
    over: those of the render in which it was registered. *)
Record render := { r_files : list FileData;
                   r_transferProgress : gmap string progress_entry }.

(** The listeners are registered once, by the effect that runs after the
    first render. *)
Definition mount : render :=
  {| r_files := files initial; r_transferProgress := transferProgress initial |}.

(** The bindings of the render that shows [st]. *)
Definition rendered (st : app) : render :=
  {| r_files := files st; r_transferProgress := transferProgress st |}.

(** The [file-chunk] listener.  [now] is the [Date.now()] of the listener,
    [now'] the one inside [calculateSpeed]. *)
Definition on_file_chunk (env : render) (now now' : Z)
    (chunk : list Byte.byte) (progress : jsnum) (st : app) : app :=
  let lastFile := last (r_files env) in
  let lastProgress :=
    match lastFile with
    | Some lf => default 0 (bytes <$> r_transferProgress env !! id lf)
    | None => 0
    end in
  let bytesReceived := byteLength chunk in
  let speed := calculateSpeed now' bytesReceived (speedRef st).1 in
  match lastFile with
  | Some lf =>
      {| sessionCode := sessionCode st;
         app_status := app_status st;
         files :=
           (fun f =>
              if decide (id f = id lf)
              then {| id := id f; name := name f; size := size f;
                      type := type f; file := file f;
                      received := Some (default 0 (received f) + bytesReceived);
                      chunks := Some (default [] (chunks f) ++ [chunk]);
                      status := status f |}
              else f) <$> files st;
         transferProgress :=
           <[ id lf := {| bytes := lastProgress + bytesReceived;
                          total := size lf; speed := speed |} ]>
             (transferProgress st);
         peerConnected := peerConnected st;
         speedRef := (now, lastProgress + bytesReceived);
         connected := connected st |}
  | None => st
  end.

(** The [transfer-complete] listener. *)
Definition on_transfer_complete (st : app) : app :=
  {| sessionCode := sessionCode st;
     app_status := {| message := "Transfer completed successfully!";
                      st_type := ts_completed |};
     files :=
       (fun f =>
          {| id := id f; name := name f; size := size f; type := type f;
             file := file f; received := received f; chunks := chunks f;
             status := match status f with
                       | Some transferring => Some completed
                       | other => other
                       end |}) <$> files st;
     transferProgress := transferProgress st;
     peerConnected := peerConnected st;
     speedRef := speedRef st;
     connected := connected st |}.

(** *** Sender *)

(** What the client emits on its socket. *)
Inductive emit :=
| emit_file_meta (name : string) (size : Z) (type : string) (code : string)
| emit_file_chunk (chunk : list Byte.byte) (code : string) (progress : jsnum)
| emit_transfer_complete (code : string).

(** The entry that [handleFileSelect] makes for a selected file. *)
Definition newFileData (fid : string) (f : File) : FileData :=
  {| id := fid; name := f_name f; size := f_size f; type := f_type f;
     file := Some f; received := Some 0; chunks := Some [];
     status := Some pending |}.

(** [readNextChunk] and the [onload] callback it leads to, repeated until
    the offset has reached the size.  Each [onload] reads the clock twice
    (inside [calculateSpeed], then for [speedRef]); [ticks] holds these
    readings, one pair per chunk, and the transfer is still under way
    ([None]) when they are used up. *)
Fixpoint send_loop (ticks : list (Z * Z)) (blob : File) (fid : string)
    (fileSize : Z) (code : string) (offset : Z) (st : app)
  : option (app * list emit) :=
  match ticks with
  | [] => None
  | (now', now) :: ticks' =>
      let chunk := slice (f_data blob) offset (offset + CHUNK_SIZE) in
      let ev := emit_file_chunk chunk code (js_mul (js_div offset fileSize) 100) in
      let offset' := offset + byteLength chunk in
      let st1 :=
        {| sessionCode := sessionCode st; app_status := app_status st;
           files := files st;
           transferProgress :=
             <[ fid := {| bytes := offset'; total := fileSize;
                          speed := calculateSpeed now' (byteLength chunk)
                                                  (speedRef st).1 |} ]>
               (transferProgress st);
           peerConnected := peerConnected st;
           speedRef := (now, offset');
           connected := connected st |} in
      if Z.ltb offset' fileSize then
        match send_loop ticks' blob fid fileSize code offset' st1 with
        | Some (st2, evs) => Some (st2, ev :: evs)
        | None => None
        end
      else
        Some ({| sessionCode := sessionCode st1;
                 app_status := {| message := "Transfer completed successfully!";
                                  st_type := ts_completed |};
                 files := files st1;
                 transferProgress := transferProgress st1;
                 peerConnected := peerConnected st1;
                 speedRef := speedRef st1;
                 connected := connected st1 |},
              [ev; emit_transfer_complete code])
  end.

Definition sendFiles (ticks : list (Z * Z)) (st : app)
  : option (app * list emit) :=
  match files st with
  | [] =>
      Some ({| sessionCode := sessionCode st;
               app_status := {| message := "No files selected or not connected";
                                st_type := ts_error |};
               files := files st; transferProgress := transferProgress st;
               peerConnected := peerConnected st; speedRef := speedRef st;
               connected := connected st |}, [])
  | f :: _ =>
      if negb (connected st) then
        Some ({| sessionCode := sessionCode st;
                 app_status := {| message := "No files selected or not connected";
                                  st_type := ts_error |};
                 files := files st; transferProgress := transferProgress st;
                 peerConnected := peerConnected st; speedRef := speedRef st;
                 connected := connected st |}, [])
      else
        match file f with
        | None => Some (st, [])
        | Some blob =>
            let st1 :=
              {| sessionCode := sessionCode st; app_status := app_status st;
                 files :=
                   (fun g =>
                      if decide (id g = id f)
                      then {| id := id g; name := name g; size := size g;
                              type := type g; file := file g;
                              received := received g; chunks := chunks g;
                              status := Some transferring |}
                      else g) <$> files st;
                 transferProgress := transferProgress st;
                 peerConnected := peerConnected st; speedRef := speedRef st;
                 connected := connected st |} in
            match send_loop ticks blob (id f) (size f) (sessionCode st) 0 st1 with
            | Some (st2, evs) =>
                Some (st2,
                      emit_file_meta (name f) (size f) (type f) (sessionCode st)
                      :: evs)
            | None => None
            end
        end
  end.

(** The chunk buffers and the progress tags of the emitted [file-chunk]
    events, in emission order. *)
Definition chunk_events (evs : list emit) : list (list Byte.byte * jsnum) :=
  omap (fun e => match e with
                 | emit_file_chunk chunk _ progress => Some (chunk, progress)
                 | _ => None
                 end) evs.

(** The number of bytes emitted before the [i]-th chunk. *)
Definition offset_before (ces : list (list Byte.byte * jsnum)) (i : nat) : Z :=
  byteLength (concat (take i ces.*1)).

(** The tag the code computes for a chunk that starts at [offset]. *)
Definition percentage (offset fileSize : Z) : jsnum :=
  js_mul (js_div offset fileSize) 100.

(** The specification's wording: every chunk carries the fraction
    [offset / totalSize]. *)
Definition fraction_tagged (fileSize : Z)
    (ces : list (list Byte.byte * jsnum)) : Prop :=
  ∀ i chunk p, ces !! i = Some (chunk, p) →
    js_same p (js_div (offset_before ces i) fileSize) = true.

(** What the code does: every chunk carries the percentage
    [(offset / totalSize) * 100]. *)
Definition percentage_tagged (fileSize : Z)
    (ces : list (list Byte.byte * jsnum)) : Prop :=
  ∀ i chunk p, ces !! i = Some (chunk, p) →
    p = percentage (offset_before ces i) fileSize.

(** Consecutive tags do not decrease. *)
Definition nondecreasing (tags : list jsnum) : Prop :=
  ∀ i x y, tags !! i = Some x → tags !! S i = Some y → js_le x y.


(** The number of chunks that a file of [n] bytes takes: the chunks of
    [CHUNK_SIZE] bytes that cover it, and one for the empty file. *)
Definition chunk_count (n : Z) : Z :=
  Z.max 1 ((n + CHUNK_SIZE - 1) / CHUNK_SIZE).

(** *** The other listeners and handlers of the component *)

Inductive size_unit := unit_B | unit_KB | unit_MB | unit_GB.

(** [formatFileSize], before the number is printed: the unit that is
    chosen and the number that goes with it. *)
Definition formatFileSize_parts (bytes : Z) : size_unit * Q :=
  if Z.ltb bytes 1024 then (unit_B, inject_Z bytes)
  else if Z.ltb bytes (1024 * 1024) then (unit_KB, inject_Z bytes / 1024)%Q
  else if Z.ltb bytes (1024 * 1024 * 1024)
       then (unit_MB, inject_Z bytes / inject_Z (1024 * 1024))%Q
       else (unit_GB, inject_Z bytes / inject_Z (1024 * 1024 * 1024))%Q.

(** [formatFileSize]; [toFixed1] stands for [Number.prototype.toFixed(1)]. *)
Definition formatFileSize (toFixed1 : Q → string) (bytes : Z) : string :=
  match formatFileSize_parts bytes with
  | (unit_B, _) => pretty bytes +:+ " B"
  | (unit_KB, x) => toFixed1 x +:+ " KB"
  | (unit_MB, x) => toFixed1 x +:+ " MB"
  | (unit_GB, x) => toFixed1 x +:+ " GB"
  end.

Definition set_status (msg : string) (ty : TransferStatus) (st : app) : app :=
  {| sessionCode := sessionCode st;
     app_status := {| message := msg; st_type := ty |};
     files := files st; transferProgress := transferProgress st;
     peerConnected := peerConnected st; speedRef := speedRef st;
     connected := connected st |}.

Definition set_files (fs : list FileData) (st : app) : app :=
  {| sessionCode := sessionCode st; app_status := app_status st;
     files := fs; transferProgress := transferProgress st;
     peerConnected := peerConnected st; speedRef := speedRef st;
     connected := connected st |}.

(** [resetTransfer] (the rewriting of the page address is left out). *)
Definition resetTransfer (st : app) : app :=
  {| sessionCode := "";
     app_status := {| message := "Select files to begin"; st_type := ts_idle |};
     files := []; transferProgress := ∅; peerConnected := false;
     speedRef := speedRef st; connected := connected st |}.

(** The [file-meta] listener; [fileId] is what [uuidv4()] returns. *)
Definition on_file_meta (toFixed1 : Q → string) (fileId nm : string) (sz : Z)
    (ty : string) (st : app) : app :=
  set_files
    (files st ++
       [{| id := fileId; name := nm; size := sz; type := ty; file := None;
           received := Some 0; chunks := Some [];
           status := Some transferring |}])
    (set_status
       ("Receiving " +:+ nm +:+ " (" +:+ formatFileSize toFixed1 sz +:+ ")...")
       ts_transferring st).

(** The [session-expired] listener: the status is set, then
    [resetTransfer] runs and sets it again. *)
Definition on_session_expired (st : app) : app :=
  resetTransfer
    (set_status "Session expired. Please start a new transfer." ts_error st).

Definition on_session_created (code : string) (st : app) : app :=
  {| sessionCode := code;
     app_status := {| message := "Session created. Share the code with receiver";
                      st_type := ts_waiting |};
     files := files st; transferProgress := transferProgress st;
     peerConnected := peerConnected st; speedRef := speedRef st;
     connected := connected st |}.

Definition on_receiver_joined (st : app) : app :=
  {| sessionCode := sessionCode st;
     app_status := {| message := "Receiver connected. Ready to transfer...";
                      st_type := ts_waiting |};
     files := files st; transferProgress := transferProgress st;
     peerConnected := true; speedRef := speedRef st;
     connected := connected st |}.

(** The socket's [disconnect]: the listener runs on a socket that is no
    longer connected. *)
Definition on_disconnect (st : app) : app :=
  {| sessionCode := sessionCode st;
     app_status := {| message := "Disconnected from server. Reconnecting...";
                      st_type := ts_error |};
     files := files st; transferProgress := transferProgress st;
     peerConnected := false; speedRef := speedRef st;
     connected := false |}.

Definition on_connect (st : app) : app :=
  {| sessionCode := sessionCode st;
     app_status := {| message := "Connected to server"; st_type := ts_idle |};
     files := files st; transferProgress := transferProgress st;
     peerConnected := peerConnected st; speedRef := speedRef st;
     connected := true |}.

(** What reaches the listeners of the socket, with what the listener
    reads from its surroundings (a fresh identifier, the clock). *)
Inductive socket_event :=
| ev_connect
| ev_session_created (code : string)
| ev_receiver_joined
| ev_file_meta (fileId nm : string) (sz : Z) (ty : string)
| ev_file_chunk (now now' : Z) (chunk : list Byte.byte) (progress : jsnum)
| ev_transfer_complete
| ev_session_expired
| ev_invalid_session
| ev_error (msg : string)
| ev_disconnect.

(** The listeners as the mount effect registers them. *)
Definition listen (toFixed1 : Q → string) (e : socket_event) (st : app) : app :=
  match e with
  | ev_connect => on_connect st
  | ev_session_created code => on_session_created code st
  | ev_receiver_joined => on_receiver_joined st
  | ev_file_meta fileId nm sz ty => on_file_meta toFixed1 fileId nm sz ty st
  | ev_file_chunk now now' chunk progress =>
      on_file_chunk mount now now' chunk progress st
  | ev_transfer_complete => on_transfer_complete st
  | ev_session_expired => on_session_expired st
  | ev_invalid_session =>
      set_status "Invalid session code. Please check and try again." ts_error st
  | ev_error msg => set_status ("Error: " +:+ msg) ts_error st
  | ev_disconnect => on_disconnect st
  end.

Definition listen_all (toFixed1 : Q → string) (es : list socket_event)
    (st : app) : app :=
  foldl (fun st e => listen toFixed1 e st) st es.

(** No entry of the list holds a received byte. *)
Definition nothing_stored (st : app) : Prop :=
  ∀ f, f ∈ files st → received f = Some 0 ∧ chunks f = Some [].

Definition is_file_chunk (e : socket_event) : bool :=
  match e with ev_file_chunk _ _ _ _ => true | _ => false end.

(** [handleFileSelect] on the files of the input or of the drop;
    [uuid i] is what the [i]-th call of [uuidv4()] returns. *)
Definition handleFileSelect (uuid : nat → string) (selectedFiles : list File)
    (st : app) : app :=
  match selectedFiles with
  | [] => st
  | _ :: _ =>
      match List.filter (fun f => Z.ltb MAX_FILE_SIZE (f_size f)) selectedFiles with
      | big :: _ =>
          set_status ("Error: " +:+ f_name big +:+ " exceeds 2GB limit")
                     ts_error st
      | [] =>
          set_status
            ("Ready to send " +:+ pretty (length selectedFiles) +:+ " file(s)")
            ts_idle
            (set_files
               (files st ++ imap (fun i f => newFileData (uuid i) f)
                                 selectedFiles)
               st)
      end
  end.

(** [removeFile] *)
Definition removeFile (fileId : string) (st : app) : app :=
  set_files (filter (fun f => id f ≠ fileId) (files st)) st.

(** [downloadFile]: the name, the type and the bytes of the blob that is
    offered for saving; nothing when the entry has no [chunks]. *)
Definition downloadFile (f : FileData)
  : option (string * string * list Byte.byte) :=
  match chunks f with
  | None => None
  | Some cs => Some (name f, type f, concat cs)
  end.

(** [handleReceive]: the new state and the code that goes out with
    [join-session], if any. *)
Definition handleReceive (st : app) : app * option string :=
  if String.eqb (sessionCode st) "" || negb (connected st)
  then (set_status "Enter a valid session code" ts_error st, None)
  else (set_status "Connecting to sender..." ts_waiting st,
        Some (sessionCode st)).

(** *** Example runs *)

Definition ex_sender (f : File) : app :=
  {| sessionCode := "ABC12345";
     app_status := {| message := "Ready to send 1 file(s)"; st_type := ts_idle |};
     files := [newFileData "file-1" f]; transferProgress := ∅;
     peerConnected := true; speedRef := (0, 0); connected := true |}.

(** A file of three bytes. *)
Definition ex_small : File :=
  {| f_name := "a.txt"; f_type := "text/plain";
     f_data := [Byte.x61; Byte.x62; Byte.x63] |}.

(** A file of 128 KiB, two chunks long. *)
Definition ex_two_chunks : File :=
  {| f_name := "b.bin"; f_type := "application/octet-stream";
     f_data := repeat Byte.x00 (Z.to_nat (2 * CHUNK_SIZE)) |}.

Definition ex_ticks : list (Z * Z) := [(1000, 1001); (2000, 2001); (3000, 3001)].

(** What the sender emits for [f]. *)
Definition ex_events (f : File) : list emit :=
  match sendFiles ex_ticks (ex_sender f) with
  | Some (_, evs) => evs
  | None => []
  end.

(** A receiver with one transfer under way that is 5 bytes short, one
    completed and one entry without a status. *)
Definition ex_receiver : app :=
  {| sessionCode := "ABC12345";
     app_status := {| message := "Receiving a.txt (10 B)..."; st_type := ts_transferring |};
     files :=
       [ {| id := "r1"; name := "a.txt"; size := 10; type := "text/plain";
            file := None; received := Some 5;
            chunks := Some [[Byte.x61; Byte.x62; Byte.x63; Byte.x64; Byte.x65]];
            status := Some transferring |};
         {| id := "r2"; name := "old.txt"; size := 0; type := "text/plain";
            file := None; received := Some 0; chunks := Some [];
            status := Some error |};
         {| id := "r3"; name := "n.txt"; size := 1; type := "text/plain";
            file := None; received := None; chunks := None;
            status := None |} ];
     transferProgress := ∅; peerConnected := false; speedRef := (0, 0);
     connected := true |}.

End Client.

(** ** The client's emissions as inputs of the server *)

Module Wire.

(** What the server dispatches when the socket [sock] emits [e]. *)
Definition to_input (sock : string) (e : Client.emit) : Server.input :=
  match e with
  | Client.emit_file_meta nm sz ty code => Server.FileMeta sock nm sz ty code
  | Client.emit_file_chunk chunk code progress =>
      Server.FileChunk sock chunk code progress
  | Client.emit_transfer_complete code => Server.TransferComplete sock code
  end.


(** The chunk buffers among the outputs of the server, in order. *)
Definition relayed_chunks (out : list Server.output) : list (list Byte.byte) :=
  omap (fun o => match o with
                 | Server.ToRoom _ _ (Server.file_chunk chunk _) => Some chunk
                 | _ => None
                 end) out.

End Wire.

(** ** Properties of the relay server *)

Module Relay.
Import Server.

(** ** Teardown *)


Lemma cleanupSession_sessions c st :
  sessions (cleanupSession c st) = delete c (sessions st).
Proof.
  unfold cleanupSession. destruct (sessions st !! c) eqn:E; simpl; [done|].
  symmetry. by apply delete_id.
Qed.

Lemma cleanupSession_timers c st :
  timers (cleanupSession c st) =
  match sessions st !! c with
  | Some s => delete (timeout s) (timers st)
  | None => timers st
  end.
Proof. unfold cleanupSession. by destruct (sessions st !! c). Qed.

Lemma cleanupSession_next_timer c st :
  next_timer (cleanupSession c st) = next_timer st.
Proof. unfold cleanupSession. by destruct (sessions st !! c). Qed.

Lemma cleanupSession_now c st : now (cleanupSession c st) = now st.
Proof. unfold cleanupSession. by destruct (sessions st !! c). Qed.

Lemma cleanupSession_gone c st : sessions (cleanupSession c st) !! c = None.
Proof. rewrite cleanupSession_sessions. apply lookup_delete_eq. Qed.


Lemma cleanupSession_inv c st : inv st → inv (cleanupSession c st).
Proof.
  intros [I1 I2 I3]. unfold cleanupSession.
  destruct (sessions st !! c) as [s|] eqn:E; [|by split].
  split; simpl.
  - intros c' s' H. apply lookup_delete_Some in H as [Hne H].
    destruct (I1 _ _ H) as [d Hd]. exists d.
    rewrite lookup_delete_ne; [done|].
    intros Heq. destruct (I1 _ _ E) as [d0 Hd0].
    rewrite Heq in Hd0. congruence.
  - intros t tm H. apply lookup_delete_Some in H as [Hne H].
    pose proof (I2 _ _ H) as Hs.
    rewrite lookup_delete_ne; [done|].
    intros Heq. rewrite <- Heq in Hs. rewrite E in Hs.
    injection Hs as ->. by simpl in Hne.
  - intros t tm H. apply lookup_delete_Some in H as [_ H]. eauto.
Qed.

(** ** The invariant along every run *)

Lemma inv_init ups : inv (init ups).
Proof. split; simpl; intros; simplify_map_eq. Qed.

Lemma create_session_inv sock c st :
  inv st → inv (create_session sock c st).1.
Proof.
  intros I. pose proof (cleanupSession_inv c st I) as [I1 I2 I3].
  pose proof (cleanupSession_gone c st) as G.
  unfold create_session. simpl.
  set (st1 := cleanupSession c st) in *.
  split; simpl.
  - intros c' s' H. apply lookup_insert_Some in H as [[<- <-]|[Hne H]].
    + simpl. eexists. apply lookup_insert_eq.
    + destruct (I1 _ _ H) as [d Hd]. exists d.
      rewrite lookup_insert_ne; [done|].
      apply I3 in Hd. lia.
  - intros t tm H. apply lookup_insert_Some in H as [[<- <-]|[Hne H]].
    + simpl. apply lookup_insert_eq.
    + pose proof (I2 _ _ H) as Hs.
      rewrite lookup_insert_ne; [done|]. congruence.
  - intros t tm H. apply lookup_insert_Some in H as [[<- <-]|[Hne H]].
    + lia.
    + apply I3 in H. lia.
Qed.

Lemma disconnect_loop_inv sock entries st :
  inv st → inv (disconnect_loop sock entries st).
Proof.
  revert st. induction entries as [|[c s] l IH]; intros st I; [done|].
  simpl. apply IH. case_decide; [by apply cleanupSession_inv|done].
Qed.

Lemma expire_state tid tm st :
  inv st → timers st !! tid = Some tm →
  (expire tid tm st).1 = cleanupSession (t_code tm) st.
Proof.
  intros I H. pose proof (inv_timer_session st I _ _ H) as Hs.
  unfold expire, cleanupSession. simpl. rewrite Hs. simpl.
  by rewrite delete_delete_eq.
Qed.

(** Case analysis on the handler that a turn of the event loop runs. *)
Ltac step_cases H :=
  match type of H with
  | step ?i ?st = Some _ =>
      destruct i; simpl in H;
      unfold join_session, on_file_meta, on_file_chunk,
        on_transfer_complete in H;
      repeat match type of H with
        | context [match sessions st !! ?c with _ => _ end] =>
            destruct (sessions st !! c) eqn:?
        | context [match timers st !! ?t with _ => _ end] =>
            destruct (timers st !! t) eqn:?
        | context [if ?b then _ else _] => destruct b eqn:?
        end;
      try discriminate H;
      injection H as <- <-
  end.

Lemma inv_same_registry st st' :
  sessions st' = sessions st → timers st' = timers st →
  next_timer st' = next_timer st → inv st → inv st'.
Proof.
  intros Es Et En [I1 I2 I3].
  split; rewrite ?Es, ?Et, ?En; done.
Qed.

Lemma step_inv i st st' out :
  inv st → step i st = Some (st', out) → inv st'.
Proof.
  intros I H. step_cases H;
    try done; try (by eapply inv_same_registry; [..|exact I]).
  - by apply create_session_inv.
  - by apply cleanupSession_inv.
  - apply disconnect_loop_inv. by eapply inv_same_registry; [..|exact I].
  - match goal with
    | Ht : timers st !! ?tid = Some ?tm |- _ =>
        change (inv (expire tid tm st).1); rewrite expire_state; [|done..]
    end.
    by apply cleanupSession_inv.
Qed.

Lemma run_inv ins st st' out :
  inv st → run ins st = Some (st', out) → inv st'.
Proof.
  revert st out. induction ins as [|i ins IH]; intros st out I H; simpl in H.
  - by injection H as <- _.
  - destruct (step i st) as [[st1 out1]|] eqn:E; [|done].
    destruct (run ins st1) as [[st2 out2]|] eqn:E2; [|done].
    injection H as <- _. eapply IH; [|done]. by eapply step_inv.
Qed.

Lemma reachable_inv st : reachable st → inv st.
Proof. intros (ups & ins & out & H). eapply run_inv; [apply inv_init|done]. Qed.

Lemma run_app ins1 ins2 st st1 out1 st2 out2 :
  run ins1 st = Some (st1, out1) → run ins2 st1 = Some (st2, out2) →
  run (ins1 ++ ins2) st = Some (st2, out1 ++ out2).
Proof.
  revert st out1. induction ins1 as [|i ins IH]; intros st out1 H1 H2.
  - simpl in H1. injection H1 as <- <-. done.
  - simpl in *. destruct (step i st) as [[sa oa]|]; [|done].
    destruct (run ins sa) as [[sb ob]|] eqn:E; [|done].
    injection H1 as <- <-. erewrite IH; [|done..]. by rewrite app_assoc.
Qed.

Lemma reachable_run ins st st' out :
  reachable st → run ins st = Some (st', out) → reachable st'.
Proof.
  intros (ups & ins0 & out0 & H0) H. exists ups, (ins0 ++ ins), (out0 ++ out).
  by eapply run_app.
Qed.

(** ** Timeouts are only ever cleared, except for the fresh one that
    [create-session] sets *)

Lemma cleanupSession_timers_lookup c st t :
  timers (cleanupSession c st) !! t = None ∨
  timers (cleanupSession c st) !! t = timers st !! t.
Proof.
  rewrite cleanupSession_timers. destruct (sessions st !! c); [|by right].
  rewrite lookup_delete. case_decide; [by left|by right].
Qed.

Lemma cleanupSession_timers_sub c st t tm :
  timers (cleanupSession c st) !! t = Some tm → timers st !! t = Some tm.
Proof. destruct (cleanupSession_timers_lookup c st t); congruence. Qed.

Lemma disconnect_loop_timers_lookup sock entries st t :
  timers (disconnect_loop sock entries st) !! t = None ∨
  timers (disconnect_loop sock entries st) !! t = timers st !! t.
Proof.
  revert st. induction entries as [|[c s] l IH]; intros st; [by right|].
  simpl. case_decide; [|done].
  destruct (IH (cleanupSession c st)) as [Hl|Hl]; [by left|]. rewrite Hl.
  apply cleanupSession_timers_lookup.
Qed.

Lemma disconnect_loop_timers_sub sock entries st t tm :
  timers (disconnect_loop sock entries st) !! t = Some tm →
  timers st !! t = Some tm.
Proof. destruct (disconnect_loop_timers_lookup sock entries st t); congruence. Qed.

Lemma disconnect_loop_next_timer sock entries st :
  next_timer (disconnect_loop sock entries st) = next_timer st.
Proof.
  revert st. induction entries as [|[c s] l IH]; intros st; [done|].
  simpl. rewrite IH. case_decide; [|done]. apply cleanupSession_next_timer.
Qed.

Lemma disconnect_loop_now sock entries st :
  now (disconnect_loop sock entries st) = now st.
Proof.
  revert st. induction entries as [|[c s] l IH]; intros st; [done|].
  simpl. rewrite IH. case_decide; [|done]. apply cleanupSession_now.
Qed.

Lemma disconnect_loop_rooms sock entries st :
  rooms (disconnect_loop sock entries st) = rooms st.
Proof.
  revert st. induction entries as [|[c s] l IH]; intros st; [done|].
  simpl. rewrite IH. case_decide; [|done].
  unfold cleanupSession. by destruct (sessions st !! c).
Qed.

Create Rewrite HintDb relay.
#[local] Hint Rewrite cleanupSession_next_timer cleanupSession_now
  disconnect_loop_next_timer disconnect_loop_now : relay.

(** Among the timeouts set so far, one turn leaves each as it was or
    clears it; later timeouts get later handles. *)
Lemma step_timers_lookup t i st st' out :
  step i st = Some (st', out) → (t < next_timer st)%nat →
  (timers st' !! t = None ∨ timers st' !! t = timers st !! t) ∧
  (t < next_timer st')%nat.
Proof.
  intros H Hlt. step_cases H; simpl; autorewrite with relay;
    (split; [|simpl; lia]); try by right.
  - rewrite lookup_insert_ne; [|lia]. apply cleanupSession_timers_lookup.
  - apply cleanupSession_timers_lookup.
  - destruct (disconnect_loop_timers_lookup sock
      (map_to_list (sessions st))
      (State (sessions st) (timers st) (next_timer st)
             (leave_all sock (rooms st)) (uploads st) (now st)) t);
      [by left|by right].
  - destruct (cleanupSession_timers_lookup (t_code t0)
      (State (sessions st) (delete tid (timers st)) (next_timer st)
             (rooms st) (uploads st) (now st)) t) as [Hl|Hl]; [by left|].
    rewrite Hl. simpl. rewrite lookup_delete. case_decide; [by left|by right].
Qed.

Lemma run_timers_lookup t ins st st' out :
  run ins st = Some (st', out) → (t < next_timer st)%nat →
  (timers st' !! t = None ∨ timers st' !! t = timers st !! t) ∧
  (t < next_timer st')%nat.
Proof.
  revert st out. induction ins as [|i ins IH]; intros st out H Hlt.
  - simpl in H. injection H as <- _. by split; [right|].
  - simpl in H. destruct (step i st) as [[st1 out1]|] eqn:E; [|done].
    destruct (run ins st1) as [[st2 out2]|] eqn:E2; [|done].
    injection H as <- _.
    destruct (step_timers_lookup t _ _ _ _ E Hlt) as [H1 Hlt1].
    destruct (IH _ _ E2 Hlt1) as [H2 Hlt2]. split; [|done].
    destruct H2 as [H2|H2]; [by left|]. rewrite H2. done.
Qed.

(** A timeout that has been cleared is never pending again, so it never
    fires, whatever the server goes through afterwards. *)
Lemma run_cancelled t ins st st' out :
  run ins st = Some (st', out) →
  (t < next_timer st)%nat → timers st !! t = None →
  timers st' !! t = None ∧ step (TimerFires t) st' = None.
Proof.
  intros H Hlt Hn.
  destruct (run_timers_lookup t _ _ _ _ H Hlt) as [[H1|H1] _].
  - split; [done|]. simpl. by rewrite H1.
  - rewrite Hn in H1. split; [done|]. simpl. by rewrite H1.
Qed.

(** A timeout that is still pending has the closure it was set with. *)
Lemma run_timers_sub t tm ins st st' out :
  run ins st = Some (st', out) → (t < next_timer st)%nat →
  timers st' !! t = Some tm → timers st !! t = Some tm.
Proof.
  intros H Hlt Ht.
  destruct (run_timers_lookup t _ _ _ _ H Hlt) as [[H1|H1] _]; congruence.
Qed.

(** ** The files under the uploads directory *)

Lemma elem_of_filter_bool (p : string → bool) (l : list string) f :
  f ∈ List.filter p l ↔ f ∈ l ∧ p f = true.
Proof. rewrite !list_elem_of_In. apply filter_In. Qed.

Lemma cleanupSession_uploads_sub c st f :
  f ∈ uploads (cleanupSession c st) → f ∈ uploads st.
Proof.
  unfold cleanupSession. destruct (sessions st !! c); [|done]. simpl.
  rewrite elem_of_filter_bool. tauto.
Qed.


Lemma disconnect_loop_uploads_sub sock entries st f :
  f ∈ uploads (disconnect_loop sock entries st) → f ∈ uploads st.
Proof.
  revert st. induction entries as [|[c s] l IH]; intros st H; [done|].
  simpl in H. apply IH in H. case_decide; [|done].
  by eapply cleanupSession_uploads_sub.
Qed.

(** ** The loop of the disconnect handler *)

Lemma disconnect_loop_sessions_sub sock entries st c s :
  sessions (disconnect_loop sock entries st) !! c = Some s →
  sessions st !! c = Some s.
Proof.
  revert st. induction entries as [|[c1 s1] l IH]; intros st H; [done|].
  simpl in H. apply IH in H. case_decide; [|done].
  rewrite cleanupSession_sessions in H.
  by apply lookup_delete_Some in H as [_ H].
Qed.

Lemma disconnect_loop_owned sock entries st c s :
  (c, s) ∈ entries → socketId s = sock →
  sessions (disconnect_loop sock entries st) !! c = None.
Proof.
  revert st. induction entries as [|[c1 s1] l IH]; intros st Hin Ho.
  - by apply elem_of_nil in Hin.
  - apply elem_of_cons in Hin as [Heq|Hin]; [|by apply IH].
    injection Heq as <- <-. simpl. rewrite decide_True; [|done].
    apply eq_None_not_Some. intros [s' Hs'].
    apply disconnect_loop_sessions_sub in Hs'.
    by rewrite cleanupSession_gone in Hs'.
Qed.



(** ** One live session per code *)

Lemma session_eta (s : session) : Session (socketId s) (timeout s) = s.
Proof. by destruct s. Qed.

(** Once the entry of a session has left the registry, its timeout is not
    pending and never fires again. *)
Lemma torn_down_never_fires st c s ins st1 out1 :
  reachable st → sessions st !! c = Some s →
  run ins st = Some (st1, out1) → sessions st1 !! c ≠ Some s →
  ∀ ins' st2 out2, run ins' st1 = Some (st2, out2) →
    timers st2 !! timeout s = None ∧
    step (TimerFires (timeout s)) st2 = None.
Proof.
  intros Hr Hs Hrun Hgone ins' st2 out2 Hrun'.
  pose proof (reachable_inv st Hr) as I.
  destruct (inv_session_timer st I _ _ Hs) as [d Hd].
  pose proof (inv_fresh st I _ _ Hd) as Hlt.
  destruct (run_timers_lookup (timeout s) _ _ _ _ Hrun Hlt) as [Hl Hlt1].
  eapply run_cancelled; [done..|].
  destruct Hl as [Hl|Hl]; [done|]. rewrite Hd in Hl.
  pose proof (reachable_inv st1 (reachable_run _ _ _ _ Hr Hrun)) as I1.
  apply (inv_timer_session st1 I1) in Hl. simpl in Hl.
  rewrite session_eta in Hl. done.
Qed.

(** C1. In every state the server can reach there is at most one live
    session for a code: one registry entry, with the one pending timeout
    set for that code.  A [create-session] for a code that has a live
    session first tears that session down, which clears its timeout, then
    registers the new session, owned by the caller, with a fresh timeout;
    the cleared timeout never fires afterwards. *)
Theorem create_session_replaces_live_session st c :
  reachable st →
  (∀ t1 t2 tm1 tm2,
     timers st !! t1 = Some tm1 → timers st !! t2 = Some tm2 →
     t_code tm1 = c → t_code tm2 = c →
     t1 = t2 ∧ sessions st !! c = Some (Session (t_socket tm1) t1)) ∧
  (∀ sock old, sessions st !! c = Some old →
     let torn := cleanupSession c st in
     let st' := (create_session sock c st).1 in
     sessions torn !! c = None ∧
     timers torn !! timeout old = None ∧
     sessions st' = <[ c := Session sock (next_timer st) ]> (sessions torn) ∧
     timers st' =
       <[ next_timer st := Timer sock c (now st + SESSION_TIMEOUT) ]>
         (timers torn) ∧
     timeout old ≠ next_timer st ∧
     (∀ ins st'' out, run ins st' = Some (st'', out) →
        timers st'' !! timeout old = None ∧
        step (TimerFires (timeout old)) st'' = None)).
Proof.
  intros Hr. pose proof (reachable_inv st Hr) as I. split.
  - intros t1 t2 tm1 tm2 H1 H2 E1 E2.
    pose proof (inv_timer_session st I _ _ H1) as S1.
    pose proof (inv_timer_session st I _ _ H2) as S2.
    rewrite E1 in S1. rewrite E2 in S2. split; [congruence|done].
  - intros sock old Hs torn st'.
    destruct (inv_session_timer st I _ _ Hs) as [d Hd].
    pose proof (inv_fresh st I _ _ Hd) as Hlt.
    assert (Ht : timers torn !! timeout old = None).
    { unfold torn. rewrite cleanupSession_timers, Hs. apply lookup_delete_eq. }
    assert (Hnever : ∀ ins st'' out, run ins st' = Some (st'', out) →
              timers st'' !! timeout old = None ∧
              step (TimerFires (timeout old)) st'' = None).
    { intros ins st'' out Hrun.
      apply (torn_down_never_fires st c old [CreateSession sock c] st'
               [Emit sock (session_created c)] Hr Hs eq_refl) with ins out;
        [|done].
      unfold st', create_session. simpl. rewrite lookup_insert_eq.
      rewrite cleanupSession_next_timer. intros [= <-]. simpl in Hlt. lia. }
    split; [apply cleanupSession_gone|]. split; [done|].
    split; [|split; [|split; [lia|exact Hnever]]].
    + subst torn st'. unfold create_session. simpl.
      by rewrite cleanupSession_next_timer.
    + subst torn st'. unfold create_session. simpl.
      by rewrite cleanupSession_next_timer, cleanupSession_now.
Qed.

Lemma create_session_replaces_live_session_witness :
  reachable ex_created ∧
  sessions ex_created !! "ABC12345" = Some (Session "sA" 0) ∧
  timers (cleanupSession "ABC12345" ex_created) !! 0%nat = None ∧
  step (TimerFires 0)
       (create_session "sB" "ABC12345" ex_created).1 = None.
Proof.
  assert (Hr : reachable ex_created).
  { exists ex_uploads, [CreateSession "sA" "ABC12345"],
      [Emit "sA" (session_created "ABC12345")]. vm_compute. reflexivity. }
  assert (Hs : sessions ex_created !! "ABC12345" = Some (Session "sA" 0))
    by (vm_compute; reflexivity).
  destruct (create_session_replaces_live_session ex_created "ABC12345" Hr)
    as [_ H].
  destruct (H "sB" _ Hs) as (_ & Ht & _ & _ & _ & Hnever).
  split; [exact Hr|]. split; [exact Hs|]. split; [exact Ht|].
  exact (proj2 (Hnever [] _ [] eq_refl)).
Defined.

(** ** Expiry *)




(** ** Disconnect *)



(** ** Teardown is idempotent *)



(** ** Joining a code that has no session *)

(** C8. A [join-session] for a code without a live session answers the
    caller with [invalid-session] and changes nothing: the state of the
    server (registry, rooms, timeouts) is the same, and the only event goes
    to the caller. *)
Theorem join_unknown_session_invalid st sock c :
  sessions st !! c = None →
  step (JoinSession sock c) st = Some (st, [Emit sock invalid_session]) ∧
  recipients (Emit sock invalid_session) st = {[ sock ]}.
Proof. intros H. simpl. unfold join_session. by rewrite H. Qed.

Lemma join_unknown_session_invalid_witness :
  sessions ex_created !! "NOPE0000" = None ∧
  step (JoinSession "sB" "NOPE0000") ex_created
  = Some (ex_created, [Emit "sB" invalid_session]).
Proof.
  assert (Hs : sessions ex_created !! "NOPE0000" = None)
    by (vm_compute; reflexivity).
  split; [exact Hs|].
  exact (proj1 (join_unknown_session_invalid ex_created "sB" "NOPE0000" Hs)).
Defined.

(** ** Chunks pass through unchanged *)

Lemma file_chunk_relayed st sock chunk c progress s :
  sessions st !! c = Some s →
  step (FileChunk sock chunk c progress) st
  = Some (st, [ToRoom sock c (file_chunk chunk progress)]).
Proof. intros H. simpl. unfold on_file_chunk. by rewrite H. Qed.

(** ** The size ceiling on announced files *)

(** C2. On a live session, a [file-meta] whose size is above 2 GiB (one
    byte over included) is answered with an [error] event to the caller
    and is not passed on; a size of exactly 2 GiB (or less) is passed on
    to the room. *)
Theorem file_meta_size_ceiling st sock nm ty c s :
  sessions st !! c = Some s →
  MAX_FILE_SIZE = 2 * 2 ^ 30 ∧
  (∀ size, MAX_FILE_SIZE < size →
     step (FileMeta sock nm size ty c) st
     = Some (st, [Emit sock (error "File size exceeds 2GB limit")])) ∧
  step (FileMeta sock nm (MAX_FILE_SIZE + 1) ty c) st
  = Some (st, [Emit sock (error "File size exceeds 2GB limit")]) ∧
  (∀ size, size ≤ MAX_FILE_SIZE →
     step (FileMeta sock nm size ty c) st
     = Some (st, [ToRoom sock c (file_meta nm size ty)])) ∧
  step (FileMeta sock nm MAX_FILE_SIZE ty c) st
  = Some (st, [ToRoom sock c (file_meta nm MAX_FILE_SIZE ty)]).
Proof.
  intros H.
  assert (Hover : ∀ size, MAX_FILE_SIZE < size →
     step (FileMeta sock nm size ty c) st
     = Some (st, [Emit sock (error "File size exceeds 2GB limit")])).
  { intros size Hlt. simpl. unfold on_file_meta. rewrite H.
    apply Z.ltb_lt in Hlt. by rewrite Hlt. }
  assert (Hunder : ∀ size, size ≤ MAX_FILE_SIZE →
     step (FileMeta sock nm size ty c) st
     = Some (st, [ToRoom sock c (file_meta nm size ty)])).
  { intros size Hle. simpl. unfold on_file_meta. rewrite H.
    apply Z.ltb_ge in Hle. by rewrite Hle. }
  split; [reflexivity|]. split; [exact Hover|].
  split; [apply Hover; lia|]. split; [exact Hunder|]. apply Hunder. lia.
Qed.

Lemma file_meta_size_ceiling_witness :
  sessions ex_joined !! "ABC12345" = Some (Session "sA" 0) ∧
  step (FileMeta "sA" "a.txt" 2147483649 "text/plain" "ABC12345") ex_joined
  = Some (ex_joined, [Emit "sA" (error "File size exceeds 2GB limit")]) ∧
  step (FileMeta "sA" "a.txt" 2147483648 "text/plain" "ABC12345") ex_joined
  = Some (ex_joined,
          [ToRoom "sA" "ABC12345" (file_meta "a.txt" 2147483648 "text/plain")]).
Proof.
  assert (Hs : sessions ex_joined !! "ABC12345" = Some (Session "sA" 0))
    by (vm_compute; reflexivity).
  destruct (file_meta_size_ceiling ex_joined "sA" "a.txt" "text/plain"
              "ABC12345" _ Hs) as (_ & _ & Hover & _ & Hat).
  split; [exact Hs|]. split; [exact Hover|exact Hat].
Defined.

(** ** Further properties of the handlers

    What follows covers the handlers beyond the statements above: the
    invariants they keep along every run, what they never do, and their
    behaviour on codes and sockets that own nothing. *)

(** X1.  Along every run the registry and the pending timeouts mirror each
    other: a live session has a pending timeout whose callback carries its
    code and its owner, a pending timeout belongs to the live session of
    its code, and no handle that is still to be given out is pending. *)
Theorem registry_mirrors_timers st :
  reachable st →
  (∀ c s, sessions st !! c = Some s →
     ∃ d, timers st !! timeout s = Some (Timer (socketId s) c d)) ∧
  (∀ t tm, timers st !! t = Some tm →
     sessions st !! t_code tm = Some (Session (t_socket tm) t)) ∧
  (∀ t, (next_timer st ≤ t)%nat → timers st !! t = None).
Proof.
  intros Hr. destruct (reachable_inv st Hr) as [I1 I2 I3].
  split; [exact I1|]. split; [exact I2|].
  intros t Hle. apply eq_None_not_Some. intros [tm Htm].
  apply I3 in Htm. lia.
Qed.

Lemma registry_mirrors_timers_witness :
  reachable ex_joined ∧
  sessions ex_joined !! t_code (Timer "sA" "ABC12345" 300000)
  = Some (Session "sA" 0).
Proof.
  assert (Hr : reachable ex_joined).
  { exists ex_uploads,
      [CreateSession "sA" "ABC12345"; JoinSession "sB" "ABC12345"],
      [Emit "sA" (session_created "ABC12345");
       ToRoom "sB" "ABC12345" receiver_joined].
    vm_compute. reflexivity. }
  split; [exact Hr|].
  destruct (registry_mirrors_timers ex_joined Hr) as (_ & H & _).
  apply (H 0%nat (Timer "sA" "ABC12345" 300000)).
  vm_compute. reflexivity.
Defined.

(** Traffic leaves the registry, the timeouts, the clock and the uploads
    as they are. *)
Lemma traffic_step i st :
  is_traffic i = true →
  ∃ st' out, step i st = Some (st', out) ∧
    sessions st' = sessions st ∧ timers st' = timers st ∧
    next_timer st' = next_timer st ∧ uploads st' = uploads st ∧
    now st' = now st.
Proof.
  intros Ht. destruct i; try discriminate Ht; simpl;
    unfold join_session, on_file_meta, on_file_chunk;
    repeat match goal with
      | |- context [match sessions st !! ?c with _ => _ end] =>
          destruct (sessions st !! c)
      | |- context [if ?b then _ else _] => destruct b
      end; by eexists _, _.
Qed.

(** X2.  The deadline of a session is fixed when it is created: whatever
    joins, file announcements and chunks the server handles, known code or
    not, the registry and the pending timeouts (deadlines included) stay
    exactly as they were. *)
Theorem traffic_keeps_deadlines ins st :
  forallb is_traffic ins = true →
  ∃ st' out, run ins st = Some (st', out) ∧
    sessions st' = sessions st ∧ timers st' = timers st ∧
    uploads st' = uploads st ∧ now st' = now st.
Proof.
  revert st. induction ins as [|i ins IH]; intros st Hall.
  - by exists st, [].
  - simpl in Hall. apply andb_true_iff in Hall as [Hi Hall].
    destruct (traffic_step i st Hi)
      as (st1 & out1 & Hstep & Es & Et & _ & Eu & En).
    destruct (IH st1 Hall) as (st2 & out2 & Hrun & Es2 & Et2 & Eu2 & En2).
    exists st2, (out1 ++ out2). cbn [run]. rewrite Hstep, Hrun.
    split; [done|]. by rewrite Es2, Et2, Eu2, En2.
Qed.

Lemma traffic_keeps_deadlines_witness :
  ∃ st' out,
    run [JoinSession "sB" "ABC12345";
         FileMeta "sA" "a.txt" 3 "text/plain" "ABC12345";
         FileChunk "sA" [Byte.x61; Byte.x62; Byte.x63] "ABC12345" (JNum 0)]
        ex_created = Some (st', out) ∧
    timers st' = timers ex_created.
Proof.
  destruct (traffic_keeps_deadlines
              [JoinSession "sB" "ABC12345";
               FileMeta "sA" "a.txt" 3 "text/plain" "ABC12345";
               FileChunk "sA" [Byte.x61; Byte.x62; Byte.x63] "ABC12345"
                         (JNum 0)]
              ex_created eq_refl) as (st' & out & Hrun & _ & Ht & _).
  exists st', out. split; [exact Hrun|exact Ht].
Defined.

(** Where a pending timeout comes from: it was pending before, or the
    input was a [create-session] that has just set it. *)
Lemma step_timers_origin t tm i st st' out :
  step i st = Some (st', out) → timers st' !! t = Some tm →
  now st ≤ now st' ∧
  (timers st !! t = Some tm ∨
   ∃ sock code, i = CreateSession sock code ∧
                tm = Timer sock code (now st + SESSION_TIMEOUT)).
Proof.
  intros H Ht.
  step_cases H; simpl in *; autorewrite with relay in *;
    (split; [try (simpl; lia)|]); try (by left).
  - apply lookup_insert_Some in Ht as [[_ <-]|[_ Ht]].
    + right. by eexists _, _.
    + left. by eapply cleanupSession_timers_sub.
  - left. by eapply cleanupSession_timers_sub.
  - left. by apply disconnect_loop_timers_sub in Ht.
  - left. apply cleanupSession_timers_sub in Ht.
    simpl in Ht. by apply lookup_delete_Some in Ht as [_ Ht].
Qed.

Lemma run_deadlines ins st st' out :
  run ins st = Some (st', out) →
  (∀ t tm, timers st !! t = Some tm →
           t_deadline tm ≤ now st + SESSION_TIMEOUT) →
  ∀ t tm, timers st' !! t = Some tm →
          t_deadline tm ≤ now st' + SESSION_TIMEOUT.
Proof.
  revert st out. induction ins as [|i ins IH]; intros st out H Hb.
  - simpl in H. by injection H as <- _.
  - simpl in H. destruct (step i st) as [[st1 out1]|] eqn:E; [|done].
    destruct (run ins st1) as [[st2 out2]|] eqn:E2; [|done].
    injection H as <- _. eapply IH; [done|].
    intros t tm Ht.
    destruct (step_timers_origin _ _ _ _ _ _ E Ht)
      as [Hnow [Hold|(sock & code & _ & ->)]].
    + apply Hb in Hold. lia.
    + simpl. lia.
Qed.

(** X3.  No session is given more than [SESSION_TIMEOUT]: in every state
    the server can reach, the timeout of a live session is due at most
    [SESSION_TIMEOUT] after the current time. *)
Theorem deadline_within_timeout st c s :
  reachable st → sessions st !! c = Some s →
  ∃ tm, timers st !! timeout s = Some tm ∧
        t_deadline tm ≤ now st + SESSION_TIMEOUT.
Proof.
  intros Hr Hs. destruct (inv_session_timer st (reachable_inv st Hr) _ _ Hs)
    as [d Hd].
  eexists. split; [exact Hd|].
  destruct Hr as (ups & ins & out & Hrun).
  eapply run_deadlines; [exact Hrun| |exact Hd].
  intros t tm Ht. simpl in Ht. by rewrite lookup_empty in Ht.
Qed.

Lemma deadline_within_timeout_witness :
  ∃ tm, timers ex_joined !! 0%nat = Some tm ∧
        t_deadline tm ≤ now ex_joined + SESSION_TIMEOUT.
Proof.
  apply (deadline_within_timeout ex_joined "ABC12345" (Session "sA" 0)).
  - exists ex_uploads,
      [CreateSession "sA" "ABC12345"; JoinSession "sB" "ABC12345"],
      [Emit "sA" (session_created "ABC12345");
       ToRoom "sB" "ABC12345" receiver_joined].
    vm_compute. reflexivity.
  - vm_compute. reflexivity.
Defined.

(** ** Rooms *)

Lemma members_join sock c rs r st :
  rooms st = join sock c rs →
  members r st
  = if decide (r = c) then {[ sock ]} ∪ default ∅ (rs !! c)
    else default ∅ (rs !! r).
Proof.
  unfold members, join. intros ->. case_decide as Hd.
  - subst. by rewrite lookup_insert_eq.
  - by rewrite lookup_insert_ne.
Qed.

Lemma members_leave_all sock rs r st :
  rooms st = leave_all sock rs →
  members r st = default ∅ (rs !! r) ∖ {[ sock ]}.
Proof.
  unfold members, leave_all. intros ->. rewrite lookup_fmap.
  destruct (rs !! r) as [ms|]; simpl; [done|].
  apply set_eq. intros x. rewrite elem_of_difference, elem_of_empty. tauto.
Qed.

Lemma members_cleanupSession c r st :
  members r (cleanupSession c st) = members r st.
Proof. unfold members, cleanupSession. by destruct (sessions st !! c). Qed.

Lemma members_disconnect_loop sock entries r st :
  members r (disconnect_loop sock entries st) = members r st.
Proof. unfold members. by rewrite disconnect_loop_rooms. Qed.

Lemma step_owners_in_rooms i st st' out :
  step i st = Some (st', out) → owners_in_rooms st → owners_in_rooms st'.
Proof.
  intros H Ho. step_cases H; try done; intros c' s' Hs'.
  - simpl in Hs'.
    erewrite (members_join sock code (rooms (cleanupSession code st))) by done.
    apply lookup_insert_Some in Hs' as [[<- <-]|[Hne Hs']].
    + rewrite decide_True by done. set_solver.
    + rewrite decide_False by done.
      rewrite cleanupSession_sessions in Hs'.
      apply lookup_delete_Some in Hs' as [_ Hs'].
      apply Ho in Hs'.
      change (socketId s' ∈ members c' (cleanupSession code st)).
      by rewrite members_cleanupSession.
  - simpl in Hs'.
    erewrite (members_join sock code (rooms st)) by done.
    apply Ho in Hs'. unfold members in Hs'.
    case_decide; [subst; set_solver|done].
  - rewrite members_cleanupSession.
    rewrite cleanupSession_sessions in Hs'.
    apply lookup_delete_Some in Hs' as [_ Hs']. by apply Ho.
  - rewrite members_disconnect_loop.
    erewrite (members_leave_all sock (rooms st)) by done.
    pose proof (disconnect_loop_sessions_sub _ _ _ _ _ Hs') as Hs0.
    simpl in Hs0. apply elem_of_difference. split; [by apply Ho|].
    intros Heq%elem_of_singleton.
    rewrite (disconnect_loop_owned sock _ _ c' s') in Hs'; [done| |done].
    by apply elem_of_map_to_list.
  - rewrite members_cleanupSession.
    rewrite cleanupSession_sessions in Hs'.
    apply lookup_delete_Some in Hs' as [_ Hs']. by apply Ho.
Qed.

Lemma run_owners_in_rooms ins st st' out :
  run ins st = Some (st', out) → owners_in_rooms st → owners_in_rooms st'.
Proof.
  revert st out. induction ins as [|i ins IH]; intros st out H Ho.
  - simpl in H. by injection H as <- _.
  - simpl in H. destruct (step i st) as [[st1 out1]|] eqn:E; [|done].
    destruct (run ins st1) as [[st2 out2]|] eqn:E2; [|done].
    injection H as <- _. eapply IH; [done|]. by eapply step_owners_in_rooms.
Qed.

Lemma reachable_owners_in_rooms st : reachable st → owners_in_rooms st.
Proof.
  intros (ups & ins & out & H). eapply run_owners_in_rooms; [done|].
  intros c s Hs. simpl in Hs. by rewrite lookup_empty in Hs.
Qed.

(** X4.  The owner of a live session is always in the room of its code,
    so a [join-session] by another socket reaches the owner: the handler
    emits one [receiver-joined] to the room, the owner is among its
    recipients and the joiner is not. *)
Theorem join_notifies_owner st c s joiner :
  reachable st → sessions st !! c = Some s → joiner ≠ socketId s →
  socketId s ∈ members c st ∧
  (∃ st', step (JoinSession joiner c) st
          = Some (st', [ToRoom joiner c receiver_joined]) ∧
     socketId s ∈ recipients (ToRoom joiner c receiver_joined) st' ∧
     (joiner ∉ recipients (ToRoom joiner c receiver_joined) st') ∧
     joiner ∈ members c st' ∧
     sessions st' = sessions st ∧ timers st' = timers st).
Proof.
  intros Hr Hs Hne. pose proof (reachable_owners_in_rooms st Hr _ _ Hs) as Ho.
  split; [done|]. simpl. unfold join_session. rewrite Hs.
  eexists. split; [done|]. simpl.
  erewrite (members_join joiner c (rooms st)) by done.
  rewrite decide_True by done. unfold members in Ho. set_solver.
Qed.

Lemma join_notifies_owner_witness :
  ∃ st', step (JoinSession "sB" "ABC12345") ex_created
         = Some (st', [ToRoom "sB" "ABC12345" receiver_joined]) ∧
    "sA" ∈ recipients (ToRoom "sB" "ABC12345" receiver_joined) st'.
Proof.
  destruct (join_notifies_owner ex_created "ABC12345" (Session "sA" 0) "sB")
    as (_ & st' & Hstep & Hin & _).
  - exists ex_uploads, [CreateSession "sA" "ABC12345"],
      [Emit "sA" (session_created "ABC12345")]. vm_compute. reflexivity.
  - vm_compute. reflexivity.
  - simpl. discriminate.
  - exists st'. split; [exact Hstep|exact Hin].
Defined.

(** X5.  A [create-session] for a code that is live under another owner
    replaces the session but does not take the previous owner out of the
    room: whatever the new owner then sends to the room (a file
    announcement, a chunk) also goes to the previous owner. *)
Theorem replaced_owner_stays_in_room st c old sock chunk progress :
  reachable st → sessions st !! c = Some old → socketId old ≠ sock →
  let st1 := (create_session sock c st).1 in
  sessions st1 !! c = Some (Session sock (next_timer st)) ∧
  socketId old ∈ members c st1 ∧
  step (FileChunk sock chunk c progress) st1
  = Some (st1, [ToRoom sock c (file_chunk chunk progress)]) ∧
  socketId old ∈ recipients (ToRoom sock c (file_chunk chunk progress)) st1.
Proof.
  intros Hr Hs Hne st1.
  pose proof (reachable_owners_in_rooms st Hr _ _ Hs) as Ho.
  assert (Hlive : sessions st1 !! c = Some (Session sock (next_timer st))).
  { unfold st1, create_session. simpl.
    rewrite cleanupSession_next_timer. apply lookup_insert_eq. }
  assert (Hm : socketId old ∈ members c st1).
  { unfold st1, create_session.
    erewrite (members_join sock c (rooms (cleanupSession c st))) by done.
    rewrite decide_True by done.
    unfold members, cleanupSession in *. rewrite Hs. simpl. set_solver. }
  split; [done|]. split; [done|]. split.
  - simpl. unfold on_file_chunk. by rewrite Hlive.
  - simpl. set_solver.
Qed.

Lemma replaced_owner_stays_in_room_witness :
  "sA" ∈ recipients
           (ToRoom "sC" "ABC12345" (file_chunk [Byte.x61] (JNum 0)))
           (create_session "sC" "ABC12345" ex_created).1.
Proof.
  destruct (replaced_owner_stays_in_room ex_created "ABC12345"
              (Session "sA" 0) "sC" [Byte.x61] (JNum 0))
    as (_ & _ & _ & H).
  - exists ex_uploads, [CreateSession "sA" "ABC12345"],
      [Emit "sA" (session_created "ABC12345")]. vm_compute. reflexivity.
  - vm_compute. reflexivity.
  - simpl. discriminate.
  - exact H.
Defined.

(** A socket that disconnects is taken out of every room (by the socket
    library), and the loop of the handler leaves the rooms alone. *)
Lemma disconnect_leaves_every_room st sock :
  let st' := (on_disconnect sock st).1 in
  (∀ r, sock ∉ members r st') ∧
  (∀ from r e, sock ∉ recipients (ToRoom from r e) st') ∧
  (∀ r m, m ≠ sock → (m ∈ members r st' ↔ m ∈ members r st)).
Proof.
  intros st'.
  assert (Hm : ∀ r, members r st' = members r st ∖ {[ sock ]}).
  { intros r. unfold st', on_disconnect. simpl.
    rewrite members_disconnect_loop.
    by erewrite (members_leave_all sock (rooms st)). }
  split; [|split].
  - intros r. rewrite Hm. set_solver.
  - intros from r e. simpl. rewrite Hm. set_solver.
  - intros r m Hne. rewrite Hm. set_solver.
Qed.

(** A socket stays in the rooms it is in as long as it does not
    disconnect. *)
Lemma step_members_kept m r i st st' out :
  step i st = Some (st', out) → i ≠ Disconnect m →
  m ∈ members r st → m ∈ members r st'.
Proof.
  intros H Hne Hm. step_cases H; try done;
    rewrite ?members_cleanupSession; try done.
  - erewrite (members_join sock code (rooms (cleanupSession code st))) by done.
    rewrite <- (members_cleanupSession code) in Hm. unfold members in Hm.
    case_decide; [subst; set_solver|done].
  - erewrite (members_join sock code (rooms st)) by done.
    unfold members in Hm. case_decide; [subst; set_solver|done].
  - rewrite members_disconnect_loop.
    erewrite (members_leave_all sock (rooms st)) by done.
    unfold members in Hm. apply elem_of_difference. split; [done|].
    intros ->%elem_of_singleton. done.
Qed.

(** X6.  Teardown does not empty the room: a socket that has joined the
    room of a code stays a member, through expiry, completion and
    replacement of the session, for as long as it does not disconnect. *)
Theorem membership_outlives_session ins m r : ∀ st st' out,
  run ins st = Some (st', out) → Disconnect m ∉ ins →
  m ∈ members r st → m ∈ members r st'.
Proof.
  induction ins as [|i ins IH]; intros st st' out H Hni Hm.
  - simpl in H. by injection H as <- _.
  - simpl in H. destruct (step i st) as [[st1 out1]|] eqn:E; [|done].
    destruct (run ins st1) as [[st2 out2]|] eqn:E2; [|done].
    injection H as <- _. apply not_elem_of_cons in Hni as [Hne Hni].
    eapply IH; [done..|]. eapply step_members_kept; [done| |done].
    congruence.
Qed.

Lemma membership_outlives_session_witness :
  ∃ st' out,
    run [TimerFires 0] ex_due = Some (st', out) ∧
    sessions st' !! "ABC12345" = None ∧
    "sB" ∈ members "ABC12345" st'.
Proof.
  assert (Hrun : run [TimerFires 0] ex_due
                 = Some (cleanupSession "ABC12345" ex_due,
                         [ToRoom "sA" "ABC12345" session_expired]))
    by (vm_compute; reflexivity).
  eexists _, _. split; [exact Hrun|]. split; [vm_compute; reflexivity|].
  apply (membership_outlives_session [TimerFires 0] "sB" "ABC12345"
           ex_due _ _ Hrun).
  - intros Hin. apply list_elem_of_singleton in Hin. discriminate.
  - by compute_done.
Defined.

(** ** Completion, disconnects of non-owners, outputs, uploads *)



Lemma disconnect_loop_none_owned sock entries st :
  (∀ c s, (c, s) ∈ entries → socketId s ≠ sock) →
  disconnect_loop sock entries st = st.
Proof.
  revert st. induction entries as [|[c s] l IH]; intros st H; [done|].
  simpl. rewrite decide_False.
  - apply IH. intros c' s' Hin. apply (H c' s'). apply elem_of_cons. by right.
  - apply (H c s). apply elem_of_cons. by left.
Qed.

(** X8.  The disconnect of a socket that owns no session (a receiver that
    has joined, say) tears nothing down: the registry, the pending
    timeouts and the uploads are as before. *)
Theorem disconnect_of_non_owner st sock :
  (∀ c s, sessions st !! c = Some s → socketId s ≠ sock) →
  let st' := (on_disconnect sock st).1 in
  sessions st' = sessions st ∧ timers st' = timers st ∧
  uploads st' = uploads st ∧ next_timer st' = next_timer st.
Proof.
  intros H st'. unfold st', on_disconnect. simpl.
  rewrite disconnect_loop_none_owned; [done|].
  intros c s Hin. apply elem_of_map_to_list in Hin. by eapply H.
Qed.

Lemma disconnect_of_non_owner_witness :
  sessions (on_disconnect "sB" ex_joined).1 = sessions ex_joined ∧
  timers (on_disconnect "sB" ex_joined).1 = timers ex_joined.
Proof.
  destruct (disconnect_of_non_owner ex_joined "sB") as (Hs & Ht & _).
  - intros c s Hs.
    destruct (decide (c = "ABC12345")) as [->|Hne].
    + assert (Hl : sessions ex_joined !! "ABC12345" = Some (Session "sA" 0))
        by (vm_compute; reflexivity).
      rewrite Hl in Hs. injection Hs as <-. simpl. discriminate.
    + assert (Hl : sessions ex_joined = {[ "ABC12345" := Session "sA" 0 ]})
        by (vm_compute; reflexivity).
      rewrite Hl, lookup_singleton_ne in Hs by done. discriminate.
  - split; [exact Hs|exact Ht].
Defined.

(** X9.  What the server sends.  A handler emits at most one event.  An
    event sent to a single socket goes to the socket whose handler runs,
    and is one of [session-created], [invalid-session] and [error].  A
    [session-expired] is only ever broadcast by a timeout that fires, and
    a timeout broadcasts nothing else. *)
Theorem outputs_discipline i st st' out :
  step i st = Some (st', out) →
  (length out ≤ 1)%nat ∧
  (∀ to e, Emit to e ∈ out →
     input_socket i = Some to ∧
     ((∃ code, e = session_created code) ∨ e = invalid_session ∨
      ∃ msg, e = error msg)) ∧
  (∀ from room e, ToRoom from room e ∈ out →
     (e = session_expired ↔ ∃ tid, i = TimerFires tid) ∧
     ((∀ tid, i ≠ TimerFires tid) → input_socket i = Some from)).
Proof.
  intros H. step_cases H; simpl; (split; [lia|]); split; intros;
    repeat match goal with
      | Hin : _ ∈ [] |- _ => by apply elem_of_nil in Hin
      | Hin : _ ∈ [_] |- _ => apply list_elem_of_singleton in Hin
      end;
    simplify_eq; try (split; [done|by eauto]).
  all: split; [split; [try done|try by eauto]|try done].
  all: try by intros [? ?].
  - intros _. by eexists.
  - intros Hne. by destruct (Hne tid).
Qed.

Lemma outputs_discipline_witness :
  (length [ToRoom "sA" "ABC12345" session_expired] ≤ 1)%nat ∧
  ∀ to e, Emit to e ∈ [ToRoom "sA" "ABC12345" session_expired] →
          input_socket (TimerFires 0) = Some to.
Proof.
  destruct (outputs_discipline (TimerFires 0) ex_due
              (cleanupSession "ABC12345" ex_due)
              [ToRoom "sA" "ABC12345" session_expired])
    as (Hlen & Hemit & _).
  - vm_compute. reflexivity.
  - split; [exact Hlen|]. intros to e Hin. exact (proj1 (Hemit to e Hin)).
Defined.

(** X10.  The server never writes under the uploads directory: along
    every run the files that are there were there from the start. *)
Theorem uploads_only_shrink ins : ∀ st st' out,
  run ins st = Some (st', out) → ∀ f, f ∈ uploads st' → f ∈ uploads st.
Proof.
  induction ins as [|i ins IH]; intros st st' out H f Hf.
  - simpl in H. by injection H as <- _.
  - simpl in H. destruct (step i st) as [[st1 out1]|] eqn:E; [|done].
    destruct (run ins st1) as [[st2 out2]|] eqn:E2; [|done].
    injection H as <- _. pose proof (IH _ _ _ E2 f Hf) as Hf1.
    clear E2 Hf IH. step_cases E; try done.
    + simpl in Hf1. by eapply cleanupSession_uploads_sub.
    + by eapply cleanupSession_uploads_sub.
    + by apply disconnect_loop_uploads_sub in Hf1.
    + by apply cleanupSession_uploads_sub in Hf1.
Qed.

Lemma uploads_only_shrink_witness :
  "ABC1" ∈ uploads (cleanupSession "ABC12345" ex_joined) ∧
  "ABC1" ∈ uploads ex_joined.
Proof.
  assert (Hin : "ABC1" ∈ uploads (cleanupSession "ABC12345" ex_joined)).
  { assert (Hu : uploads (cleanupSession "ABC12345" ex_joined)
                 = ["ABC1"; "XYZ00000-b.bin"]) by (vm_compute; reflexivity).
    rewrite Hu. apply elem_of_cons. by left. }
  split; [exact Hin|].
  apply (uploads_only_shrink [TransferComplete "sB" "ABC12345"] ex_joined
           (cleanupSession "ABC12345" ex_joined)
           [ToRoom "sB" "ABC12345" transfer_complete]);
    [vm_compute; reflexivity|exact Hin].
Defined.

End Relay.

(** ** Properties of the client's sender and receiver *)

Module Transfer.
Import Client.

(** ** Chunks of a blob *)

Lemma CHUNK_SIZE_pos : 0 < CHUNK_SIZE.
Proof. reflexivity. Qed.

Lemma byteLength_app (a b : list Byte.byte) :
  byteLength (a ++ b) = byteLength a + byteLength b.
Proof. unfold byteLength. rewrite length_app. lia. Qed.

Lemma byteLength_nonneg (a : list Byte.byte) : 0 ≤ byteLength a.
Proof. unfold byteLength. lia. Qed.

Lemma slice_chunk data offset :
  0 ≤ offset ≤ byteLength data →
  slice data offset (offset + CHUNK_SIZE)
  = take (Z.to_nat (Z.min CHUNK_SIZE (byteLength data - offset)))
         (drop (Z.to_nat offset) data).
Proof.
  intros H. pose proof CHUNK_SIZE_pos. unfold slice. cbv zeta.
  destruct (Z.ltb_spec offset 0); [lia|].
  destruct (Z.ltb_spec (offset + CHUNK_SIZE) 0); [lia|].
  f_equal; [f_equal; lia|f_equal; f_equal; lia].
Qed.

Lemma byteLength_slice data offset :
  0 ≤ offset ≤ byteLength data →
  byteLength (slice data offset (offset + CHUNK_SIZE))
  = Z.min CHUNK_SIZE (byteLength data - offset).
Proof.
  intros H. pose proof CHUNK_SIZE_pos. rewrite slice_chunk; [|done].
  unfold byteLength in *. rewrite length_take, length_drop. lia.
Qed.

(** ** The progress tag *)

Lemma percentage_mono a b fileSize :
  0 < fileSize → a ≤ b →
  js_le (percentage a fileSize) (percentage b fileSize).
Proof.
  intros Hpos Hab. unfold percentage, js_div.
  destruct (Z.eqb_spec fileSize 0); [lia|]. simpl.
  apply Qmult_le_compat_r; [|discriminate].
  apply Qmult_le_compat_r; [by rewrite <- Zle_Qle|].
  apply Qinv_le_0_compat. replace 0%Q with (inject_Z 0) by done.
  rewrite <- Zle_Qle. lia.
Qed.

Lemma offset_before_0 ces : offset_before ces 0 = 0.
Proof. done. Qed.

Lemma offset_before_S chunk p ces i :
  offset_before ((chunk, p) :: ces) (S i)
  = byteLength chunk + offset_before ces i.
Proof. unfold offset_before. simpl. apply byteLength_app. Qed.

Lemma chunk_events_emitted code ces :
  chunk_events (((fun cp => emit_file_chunk cp.1 code cp.2) <$> ces)
                ++ [emit_transfer_complete code]) = ces.
Proof.
  unfold chunk_events. rewrite omap_app. simpl. rewrite app_nil_r.
  induction ces as [|[c p] ces IH]; [done|]. simpl. f_equal. exact IH.
Qed.

Lemma chunk_events_meta nm sz ty code evs :
  chunk_events (emit_file_meta nm sz ty code :: evs) = chunk_events evs.
Proof. reflexivity. Qed.

(** ** The sending loop *)

Lemma send_loop_spec blob fid code ticks : ∀ offset st,
  0 ≤ offset ≤ f_size blob →
  f_size blob - offset ≤ Z.of_nat (length ticks) * CHUNK_SIZE →
  (1 ≤ length ticks)%nat →
  ∃ st' ces,
    send_loop ticks blob fid (f_size blob) code offset st
    = Some (st', ((fun cp => emit_file_chunk cp.1 code cp.2) <$> ces)
                 ++ [emit_transfer_complete code]) ∧
    concat ces.*1 = drop (Z.to_nat offset) (f_data blob) ∧
    (∀ i chunk p, ces !! i = Some (chunk, p) →
       p = percentage (offset + offset_before ces i) (f_size blob)) ∧
    nondecreasing ces.*2.
Proof.
  pose proof CHUNK_SIZE_pos as HC.
  induction ticks as [|[now' now] ticks IH]; intros offset st Ho Hfuel H1;
    [simpl in H1; lia|].
  cbn [send_loop].
  set (chunk := slice (f_data blob) offset (offset + CHUNK_SIZE)).
  assert (Hlen : byteLength chunk
                 = Z.min CHUNK_SIZE (f_size blob - offset))
    by by apply byteLength_slice.
  assert (Hchunk : chunk
                   = take (Z.to_nat (byteLength chunk))
                          (drop (Z.to_nat offset) (f_data blob))).
  { rewrite Hlen. by apply slice_chunk. }
  fold (percentage offset (f_size blob)).
  destruct (Z.ltb_spec (offset + byteLength chunk) (f_size blob)) as [Hlt|Hge].
  - match goal with
    | |- context [send_loop ticks blob fid (f_size blob) code ?o ?s] =>
        destruct (IH o s) as (st' & ces & Heq & Hcat & Htag & Hmono)
    end.
    + lia.
    + rewrite length_cons in Hfuel. lia.
    + rewrite length_cons in Hfuel. destruct ticks; simpl in *; lia.
    + rewrite Heq.
      exists st', ((chunk, percentage offset (f_size blob)) :: ces).
      split; [done|]. split; [|split].
      * change (chunk ++ concat ces.*1
                = drop (Z.to_nat offset) (f_data blob)).
        rewrite Hcat. rewrite Hchunk at 1.
        replace (Z.to_nat (offset + byteLength chunk))
          with (Z.to_nat offset + Z.to_nat (byteLength chunk))%nat
          by (pose proof (byteLength_nonneg chunk); lia).
        rewrite <- drop_drop. apply take_drop.
      * intros [|i] c p Hi.
        -- simpl in Hi. injection Hi as <- <-.
           rewrite offset_before_0. f_equal. lia.
        -- simpl in Hi. rewrite (Htag _ _ _ Hi), offset_before_S.
           f_equal. lia.
      * intros [|i] x y Hx Hy.
        -- simpl in Hx, Hy. injection Hx as <-.
           destruct ces as [|[c0 p0] ces0]; [done|].
           simpl in Hy. injection Hy as <-.
           rewrite (Htag 0%nat c0 p0 eq_refl), offset_before_0.
           apply percentage_mono; pose proof (byteLength_nonneg chunk); lia.
        -- simpl in Hx, Hy. by eapply Hmono.
  - eexists _, [(chunk, percentage offset (f_size blob))].
    split; [done|]. split; [|split].
    + simpl. rewrite app_nil_r. rewrite Hchunk at 1.
      apply take_ge. rewrite length_drop.
      unfold f_size, byteLength in *. lia.
    + intros [|i] c p Hi; [|done].
      simpl in Hi. injection Hi as <- <-.
      rewrite offset_before_0. f_equal. lia.
    + intros [|i] x y Hx Hy; done.
Qed.

(** ** Sending a selected file

    The first entry of the file list was made from a [File] (so its size is
    that of the blob), the socket is connected, and there is a clock
    reading for every chunk. *)

Section SendingAFile.

Context (ticks : list (Z * Z)) (st : app).
Context (fd : FileData) (rest : list FileData) (blob : File).
Hypothesis first_file : files st = fd :: rest.
Hypothesis socket_connected : connected st = true.
Hypothesis has_blob : file fd = Some blob.
Hypothesis size_of_blob : size fd = f_size blob.
Hypothesis enough_ticks : size fd ≤ Z.of_nat (length ticks) * CHUNK_SIZE.
Hypothesis some_tick : (1 ≤ length ticks)%nat.

(** What [sendFiles] does for a selected file once a peer is there: it
    completes as soon as there is a clock reading for each chunk, and
    emits the metadata, the chunks and the completion signal. *)
Lemma sendFiles_spec :
  ∃ st' ces,
    sendFiles ticks st
    = Some (st', emit_file_meta (name fd) (size fd) (type fd) (sessionCode st)
                 :: ((fun cp => emit_file_chunk cp.1 (sessionCode st) cp.2)
                       <$> ces)
                 ++ [emit_transfer_complete (sessionCode st)]) ∧
    concat ces.*1 = f_data blob ∧
    percentage_tagged (size fd) ces ∧
    nondecreasing ces.*2.
Proof.
  unfold sendFiles.
  rewrite first_file, socket_connected, has_blob, size_of_blob.
  simpl negb. cbv iota.
  match goal with
  | |- context [send_loop ticks blob ?fid (f_size blob) ?code 0 ?s] =>
      destruct (send_loop_spec blob fid code ticks 0 s)
        as (st' & ces & Heq & Hcat & Htag & Hmono)
  end.
  - pose proof (byteLength_nonneg (f_data blob)). unfold f_size. lia.
  - lia.
  - done.
  - rewrite Heq. exists st', ces. split; [done|]. split; [done|].
    split; [|done].
    intros i chunk p Hi. rewrite (Htag _ _ _ Hi). f_equal.
Qed.

(** C3, amended.  For a selected file, once a peer is there, [sendFiles]
    emits the file in chunks, and each chunk is tagged with the percentage
    [(offset / totalSize) * 100], [offset] being the number of bytes
    emitted before that chunk. *)
Theorem chunk_progress_is_percentage :
  ∃ st' evs,
    sendFiles ticks st = Some (st', evs) ∧
    ∀ i chunk p, chunk_events evs !! i = Some (chunk, p) →
      p = js_mul (js_div (offset_before (chunk_events evs) i) (size fd)) 100.
Proof.
  destruct sendFiles_spec as (st' & ces & Heq & _ & Htag & _).
  eexists st', _. split; [exact Heq|].
  rewrite chunk_events_meta, chunk_events_emitted. exact Htag.
Qed.


End SendingAFile.

(** ** The progress tag of a chunk, on examples *)

(** C3, as the specification states it: the tag of a chunk is the fraction
    [offset / totalSize].  For the file of two chunks the second chunk
    starts at byte 65536 of 131072 and is tagged 50, not 1/2. *)
Lemma fraction_tagged_counterexample :
  length (ex_events ex_two_chunks) = 4%nat ∧
  size (newFileData "file-1" ex_two_chunks) = 131072 ∧
  byteLength <$> (chunk_events (ex_events ex_two_chunks)).*1 = [65536; 65536] ∧
  (∃ chunk p,
     chunk_events (ex_events ex_two_chunks) !! 1%nat = Some (chunk, p) ∧
     offset_before (chunk_events (ex_events ex_two_chunks)) 1 = 65536 ∧
     js_same p (JNum (inject_Z 50)) = true ∧
     js_same p (js_div 65536 131072) = false) ∧
  ¬ fraction_tagged 131072 (chunk_events (ex_events ex_two_chunks)).
Proof.
  split; [vm_compute; reflexivity|]. split; [vm_compute; reflexivity|].
  split; [vm_compute; reflexivity|].
  set (ces := chunk_events (ex_events ex_two_chunks)).
  assert (Hp : snd <$> ces !! 1%nat = Some (percentage 65536 131072))
    by (vm_compute; reflexivity).
  assert (Ho : offset_before ces 1 = 65536) by (vm_compute; reflexivity).
  clearbody ces.
  destruct (ces !! 1%nat) as [[chunk p]|] eqn:E; [|discriminate].
  simpl in Hp. injection Hp as ->.
  split.
  - exists chunk, (percentage 65536 131072).
    split; [done|]. split; [done|]. split; vm_compute; reflexivity.
  - intros H. specialize (H 1%nat _ _ E). rewrite Ho in H.
    vm_compute in H. discriminate.
Qed.

Lemma chunk_progress_is_percentage_witness :
  ∃ st' evs,
    sendFiles ex_ticks (ex_sender ex_small) = Some (st', evs) ∧
    ∀ i chunk p, chunk_events evs !! i = Some (chunk, p) →
      p = js_mul (js_div (offset_before (chunk_events evs) i) 3) 100.
Proof.
  apply (chunk_progress_is_percentage ex_ticks (ex_sender ex_small)
           (newFileData "file-1" ex_small) [] ex_small).
  - reflexivity.
  - reflexivity.
  - reflexivity.
  - reflexivity.
  - vm_compute. discriminate.
  - simpl. lia.
Defined.



(** ** The receiver *)

(** C5.  The [transfer-complete] listener marks every entry whose status
    is [transferring] as [completed], whatever its byte counter and its
    declared size are; an entry in any other status keeps it; nothing else
    of an entry changes, and no entry is added or dropped. *)
Theorem transfer_complete_marks_transferring st :
  length (files (on_transfer_complete st)) = length (files st) ∧
  ∀ i f, files st !! i = Some f →
    ∃ f', files (on_transfer_complete st) !! i = Some f' ∧
      (status f = Some transferring → status f' = Some completed) ∧
      (status f ≠ Some transferring → status f' = status f) ∧
      id f' = id f ∧ name f' = name f ∧ size f' = size f ∧
      type f' = type f ∧ file f' = file f ∧
      received f' = received f ∧ chunks f' = chunks f.
Proof.
  split; [simpl; apply length_fmap|].
  intros i f Hi. simpl. rewrite list_lookup_fmap, Hi. simpl.
  eexists. split; [reflexivity|]. simpl.
  split; [by intros ->|]. split; [|done].
  intros Hne. destruct (status f) as [[]|]; done.
Qed.

Lemma transfer_complete_marks_transferring_witness :
  files ex_receiver !! 0%nat
  = Some {| id := "r1"; name := "a.txt"; size := 10; type := "text/plain";
            file := None; received := Some 5;
            chunks := Some [[Byte.x61; Byte.x62; Byte.x63; Byte.x64; Byte.x65]];
            status := Some transferring |} ∧
  ∃ f', files (on_transfer_complete ex_receiver) !! 0%nat = Some f' ∧
        status f' = Some completed ∧ received f' = Some 5 ∧ size f' = 10.
Proof.
  split; [reflexivity|].
  destruct (transfer_complete_marks_transferring ex_receiver) as [_ H].
  destruct (H 0%nat _ eq_refl)
    as (f' & Hf' & Hdone & _ & _ & _ & Hsize & _ & _ & Hrecv & _).
  exists f'. split; [exact Hf'|]. split; [exact (Hdone eq_refl)|].
  split; [exact Hrecv|exact Hsize].
Defined.

(** As it is registered, the [file-chunk] listener sees the file list of
    the first render, which is empty. *)
Lemma mounted_file_chunk_listener_keeps_state now now' chunk progress st :
  on_file_chunk mount now now' chunk progress st = st.
Proof. reflexivity. Qed.

(** C10.  A [file-chunk] that arrives while the file list is empty is
    dropped: the state stays as it is, so no chunk is appended, no byte
    counter moves, no entry is made and the status line shows no error.
    This holds for the listener as it is registered, and just as well for
    a listener that would read the list of the current render. *)
Theorem file_chunk_without_file_discarded now now' chunk progress st :
  files st = [] →
  on_file_chunk mount now now' chunk progress st = st ∧
  on_file_chunk (rendered st) now now' chunk progress st = st.
Proof.
  intros H. split; [reflexivity|].
  unfold on_file_chunk, rendered. simpl. by rewrite H.
Qed.

Lemma file_chunk_without_file_discarded_witness :
  files initial = [] ∧
  on_file_chunk mount 1000 1001 [Byte.x61] (JNum 0) initial = initial.
Proof.
  split; [reflexivity|].
  apply (file_chunk_without_file_discarded 1000 1001 [Byte.x61] (JNum 0)
           initial).
  reflexivity.
Defined.

(** ** Selecting files *)

Lemma filter_oversized_nil (sel : list File) :
  List.filter (fun f => Z.ltb MAX_FILE_SIZE (f_size f)) sel = [] ↔
  Forall (fun f => f_size f ≤ MAX_FILE_SIZE) sel.
Proof.
  induction sel as [|f sel IH]; simpl.
  - split; [constructor|done].
  - destruct (Z.ltb_spec MAX_FILE_SIZE (f_size f)).
    + split; [done|]. intros Hall. apply Forall_cons in Hall as [? _]. lia.
    + rewrite IH. split; [by constructor|]. by intros [_ ?]%Forall_cons.
Qed.

(** X11.  [handleFileSelect] takes all the selected files or none: an
    empty selection changes nothing, and when one of the selected files
    is over 2 GiB no file is added, the others included, and the status
    line names the first oversized file. *)
Theorem handleFileSelect_all_or_nothing uuid sel st :
  handleFileSelect uuid [] st = st ∧
  (∀ big, big ∈ sel → MAX_FILE_SIZE < f_size big →
     files (handleFileSelect uuid sel st) = files st ∧
     ∃ first rest,
       List.filter (fun f => Z.ltb MAX_FILE_SIZE (f_size f)) sel
       = first :: rest ∧
       first ∈ sel ∧ MAX_FILE_SIZE < f_size first ∧
       app_status (handleFileSelect uuid sel st)
       = {| message := "Error: " +:+ f_name first +:+ " exceeds 2GB limit";
            st_type := ts_error |}).
Proof.
  split; [done|]. intros big Hin Hbig.
  destruct (List.filter (fun f => Z.ltb MAX_FILE_SIZE (f_size f)) sel)
    as [|first rest] eqn:E.
  - apply filter_oversized_nil in E. rewrite Forall_forall in E.
    apply E in Hin. lia.
  - assert (Hf : first ∈ List.filter
                   (fun f => Z.ltb MAX_FILE_SIZE (f_size f)) sel)
      by (rewrite E; apply elem_of_cons; by left).
    apply list_elem_of_In, filter_In in Hf as [Hf1 Hf2].
    apply list_elem_of_In in Hf1. apply Z.ltb_lt in Hf2.
    unfold handleFileSelect. destruct sel as [|f0 sel0]; [by inversion Hin|].
    rewrite E. split; [done|]. by exists first, rest.
Qed.

Lemma handleFileSelect_all_or_nothing_witness :
  files (handleFileSelect (fun _ => "u")
           [ex_small;
            {| f_name := "huge.iso"; f_type := "";
               f_data := repeat Byte.x00 (Z.to_nat (MAX_FILE_SIZE + 1)) |}]
           initial) = [].
Proof.
  set (huge := {| f_name := "huge.iso"; f_type := "";
                  f_data := repeat Byte.x00 (Z.to_nat (MAX_FILE_SIZE + 1)) |}).
  destruct (handleFileSelect_all_or_nothing (fun _ => "u") [ex_small; huge]
              initial) as [_ H].
  destruct (H huge) as [Hfiles _].
  - apply elem_of_cons. right. apply elem_of_cons. by left.
  - unfold f_size, byteLength, huge. cbn [f_data].
    rewrite repeat_length, Z2Nat.id; [lia|done].
  - exact Hfiles.
Defined.

(** X12.  When every selected file is within 2 GiB, [handleFileSelect]
    appends one entry per file, in order, after the entries that were
    there: the entry carries the file, its name, its type and its size
    (at most 2 GiB), the identifier drawn for it, a zero byte counter, no
    chunks, and the status [pending]. *)
Theorem handleFileSelect_appends uuid sel st :
  sel ≠ [] → Forall (fun f => f_size f ≤ MAX_FILE_SIZE) sel →
  let st' := handleFileSelect uuid sel st in
  length (files st') = (length (files st) + length sel)%nat ∧
  (∀ i fd, files st !! i = Some fd → files st' !! i = Some fd) ∧
  (∀ i f, sel !! i = Some f →
     ∃ fd, files st' !! (length (files st) + i)%nat = Some fd ∧
       id fd = uuid i ∧ name fd = f_name f ∧ type fd = f_type f ∧
       file fd = Some f ∧ size fd = f_size f ∧ size fd ≤ MAX_FILE_SIZE ∧
       received fd = Some 0 ∧ chunks fd = Some [] ∧
       status fd = Some pending) ∧
  st_type (app_status st') = ts_idle.
Proof.
  intros Hne Hall st'.
  assert (Hst' : files st' = files st ++ imap (fun i f => newFileData (uuid i) f) sel
                 ∧ st_type (app_status st') = ts_idle).
  { unfold st', handleFileSelect. destruct sel as [|f0 sel0]; [done|].
    apply filter_oversized_nil in Hall. by rewrite Hall. }
  destruct Hst' as [Hfiles Hstatus]. rewrite Hfiles.
  split; [by rewrite length_app, length_imap|].
  split; [intros i fd Hi; by apply lookup_app_l_Some|].
  split; [|done].
  intros i f Hi. exists (newFileData (uuid i) f).
  split.
  - rewrite lookup_app_r by lia.
    replace (length (files st) + i - length (files st))%nat with i by lia.
    by rewrite list_lookup_imap, Hi.
  - repeat split; try done. simpl.
    rewrite Forall_forall in Hall. apply Hall.
    by eapply list_elem_of_lookup_2.
Qed.

Lemma handleFileSelect_appends_witness :
  ∃ fd, files (handleFileSelect (fun _ => "u") [ex_small] initial) !! 0%nat
        = Some fd ∧ size fd = 3 ∧ status fd = Some pending.
Proof.
  destruct (handleFileSelect_appends (fun _ => "u") [ex_small] initial)
    as (_ & _ & H & _).
  - discriminate.
  - repeat constructor. vm_compute. discriminate.
  - destruct (H 0%nat ex_small eq_refl)
      as (fd & Hfd & _ & _ & _ & _ & Hsize & _ & _ & _ & Hstatus).
    exists fd. split; [exact Hfd|]. split; [exact Hsize|exact Hstatus].
Defined.

(** X13.  Selecting one file into an empty list and sending it, on a
    connected socket: [sendFiles] announces the size of the file, which
    is within the 2 GiB that the server accepts, then emits chunks that
    concatenate to the bytes of the file, then the completion signal. *)
Theorem select_then_send uuid f ticks st :
  files st = [] → connected st = true →
  f_size f ≤ MAX_FILE_SIZE →
  f_size f ≤ Z.of_nat (length ticks) * CHUNK_SIZE → (1 ≤ length ticks)%nat →
  ∃ st' ces,
    sendFiles ticks (handleFileSelect uuid [f] st)
    = Some (st', emit_file_meta (f_name f) (f_size f) (f_type f)
                                (sessionCode st)
                 :: ((fun cp => emit_file_chunk cp.1 (sessionCode st) cp.2)
                       <$> ces)
                 ++ [emit_transfer_complete (sessionCode st)]) ∧
    concat ces.*1 = f_data f ∧
    f_size f ≤ 2 * 2 ^ 30.
Proof.
  intros Hnil Hc Hmax Hticks H1.
  assert (Hsel : handleFileSelect uuid [f] st
                 = set_status "Ready to send 1 file(s)" ts_idle
                     (set_files [newFileData (uuid 0%nat) f] st)).
  { unfold handleFileSelect. simpl.
    destruct (Z.ltb_spec MAX_FILE_SIZE (f_size f)); [lia|].
    by rewrite Hnil. }
  destruct (sendFiles_spec ticks (handleFileSelect uuid [f] st)
              (newFileData (uuid 0%nat) f) [] f)
    as (st' & ces & Heq & Hcat & _ & _); try done.
  - by rewrite Hsel.
  - by rewrite Hsel.
  - exists st', ces. rewrite Heq, Hsel. simpl. split; [done|].
    split; [done|]. exact Hmax.
Qed.

Lemma select_then_send_witness :
  ∃ st' ces,
    sendFiles ex_ticks (handleFileSelect (fun _ => "u") [ex_small] initial)
    = Some (st', emit_file_meta "a.txt" 3 "text/plain" ""
                 :: ((fun cp => emit_file_chunk cp.1 "" cp.2) <$> ces)
                 ++ [emit_transfer_complete ""]) ∧
    concat ces.*1 = [Byte.x61; Byte.x62; Byte.x63].
Proof.
  destruct (select_then_send (fun _ => "u") ex_small ex_ticks initial)
    as (st' & ces & Heq & Hcat & _).
  - reflexivity.
  - reflexivity.
  - vm_compute. discriminate.
  - vm_compute. discriminate.
  - simpl. lia.
  - exists st', ces. split; [exact Heq|exact Hcat].
Defined.

(** ** More on sending *)

(** X14.  [sendFiles] emits nothing unless the socket is connected and
    the first entry of the list holds a file: with an empty list or a
    closed socket it only sets an error status, and on an entry that was
    received (it has no file) it does nothing at all. *)
Theorem sendFiles_emits_only_with_file ticks st st' evs :
  sendFiles ticks st = Some (st', evs) → evs ≠ [] →
  connected st = true ∧
  ∃ fd rest blob, files st = fd :: rest ∧ file fd = Some blob ∧
    ∃ evs', evs = emit_file_meta (name fd) (size fd) (type fd)
                                 (sessionCode st) :: evs'.
Proof.
  unfold sendFiles. intros H Hne.
  destruct (files st) as [|fd rest] eqn:Ef; [by injection H as _ <-|].
  destruct (connected st); simpl in H; [|by injection H as _ <-].
  destruct (file fd) as [blob|] eqn:Eb; [|by injection H as _ <-].
  destruct (send_loop _ _ _ _ _ _ _) as [[st2 evs2]|]; [|done].
  injection H as _ <-. split; [done|].
  eexists _, _, _. split; [done|]. split; [done|]. by eexists.
Qed.

Lemma sendFiles_emits_only_with_file_witness :
  connected (ex_sender ex_small) = true ∧
  sendFiles ex_ticks
    (on_file_meta (fun _ => "") "r1" "a.txt" 3 "text/plain" initial)
  = Some (on_file_meta (fun _ => "") "r1" "a.txt" 3 "text/plain" initial, []).
Proof.
  split; [|reflexivity].
  destruct (sendFiles ex_ticks (ex_sender ex_small)) as [[st' evs]|] eqn:E;
    [|vm_compute in E; discriminate E].
  destruct (sendFiles_emits_only_with_file ex_ticks (ex_sender ex_small)
              st' evs E) as [Hc _]; [|exact Hc].
  vm_compute in E. injection E as _ <-. discriminate.
Defined.

Lemma snd_prepend (ev : emit) (r : option (app * list emit)) :
  snd <$> match r with
          | Some (st, evs) => Some (st, ev :: evs)
          | None => None
          end
  = (cons ev) <$> (snd <$> r).
Proof. by destruct r as [[? ?]|]. Qed.

(** The emitted events do not depend on the identifier of the entry, on
    the clock readings or on the rest of the state. *)
Lemma send_loop_events blob sz code ticks1 : ∀ ticks2 fid1 fid2 offset st1 st2,
  length ticks1 = length ticks2 →
  snd <$> send_loop ticks1 blob fid1 sz code offset st1
  = snd <$> send_loop ticks2 blob fid2 sz code offset st2.
Proof.
  induction ticks1 as [|[a1 b1] ticks1 IH];
    intros [|[a2 b2] ticks2] fid1 fid2 offset st1 st2 Hlen;
    try done.
  cbn [send_loop]. destruct (Z.ltb _ _); [|done].
  rewrite !snd_prepend. f_equal. apply IH. by injection Hlen.
Qed.

(** X15.  [sendFiles] sends the first file only: what it emits is fixed by
    the first entry of the list and the session code, whatever else has
    been selected after it. *)
Theorem sendFiles_sends_first_file_only ticks st1 st2 fd rest1 rest2 :
  files st1 = fd :: rest1 → files st2 = fd :: rest2 →
  connected st1 = true → connected st2 = true →
  sessionCode st1 = sessionCode st2 →
  snd <$> sendFiles ticks st1 = snd <$> sendFiles ticks st2.
Proof.
  intros Hf1 Hf2 Hc1 Hc2 Hcode. unfold sendFiles.
  rewrite Hf1, Hf2, Hc1, Hc2, Hcode. simpl.
  destruct (file fd) as [blob|]; [|done].
  rewrite !snd_prepend. f_equal. by apply send_loop_events.
Qed.

Lemma sendFiles_sends_first_file_only_witness :
  snd <$> sendFiles ex_ticks (ex_sender ex_small)
  = snd <$> sendFiles ex_ticks
              (set_files [newFileData "file-1" ex_small;
                          newFileData "file-2" ex_two_chunks]
                         (ex_sender ex_small)).
Proof.
  apply (sendFiles_sends_first_file_only ex_ticks (ex_sender ex_small) _
           (newFileData "file-1" ex_small) []
           [newFileData "file-2" ex_two_chunks]); reflexivity.
Defined.

(** ** Chunking *)

Lemma chunk_count_one n : n ≤ CHUNK_SIZE → chunk_count n = 1.
Proof.
  intros Hn. pose proof CHUNK_SIZE_pos as HC. unfold chunk_count.
  assert ((n + CHUNK_SIZE - 1) / CHUNK_SIZE < 2)
    by (apply Z.div_lt_upper_bound; lia).
  lia.
Qed.

Lemma chunk_count_step n :
  CHUNK_SIZE < n → chunk_count n = 1 + chunk_count (n - CHUNK_SIZE).
Proof.
  intros Hn. pose proof CHUNK_SIZE_pos as HC. unfold chunk_count.
  replace (n + CHUNK_SIZE - 1)
    with ((n - CHUNK_SIZE + CHUNK_SIZE - 1) + 1 * CHUNK_SIZE) by lia.
  rewrite Z.div_add by lia.
  assert (1 ≤ (n - CHUNK_SIZE + CHUNK_SIZE - 1) / CHUNK_SIZE)
    by (apply Z.div_le_lower_bound; lia).
  lia.
Qed.

Lemma send_loop_chunking blob fid code ticks : ∀ offset st st' evs,
  0 ≤ offset ≤ f_size blob → offset < f_size blob ∨ f_size blob = 0 →
  send_loop ticks blob fid (f_size blob) code offset st = Some (st', evs) →
  Z.of_nat (length (chunk_events evs)) = chunk_count (f_size blob - offset) ∧
  ∀ i c p, chunk_events evs !! i = Some (c, p) →
    byteLength c ≤ CHUNK_SIZE ∧
    (S i < length (chunk_events evs) → byteLength c = CHUNK_SIZE)%nat ∧
    (0 < f_size blob → 0 < byteLength c).
Proof.
  pose proof CHUNK_SIZE_pos as HC.
  induction ticks as [|[now' now] ticks IH]; intros offset st st' evs Ho Hlt H;
    [done|].
  cbn [send_loop] in H.
  set (chunk := slice (f_data blob) offset (offset + CHUNK_SIZE)) in *.
  assert (Hlen : byteLength chunk
                 = Z.min CHUNK_SIZE (f_size blob - offset))
    by by apply byteLength_slice.
  destruct (Z.ltb_spec (offset + byteLength chunk) (f_size blob)) as [Hl|Hg].
  - destruct (send_loop ticks _ _ _ _ _ _) as [[st2 evs2]|] eqn:E; [|done].
    injection H as _ <-.
    apply IH in E as [Hcount Hitems]; [|lia|lia].
    change (chunk_events (emit_file_chunk chunk code
              (js_mul (js_div offset (f_size blob)) 100) :: evs2))
      with ((chunk, js_mul (js_div offset (f_size blob)) 100)
              :: chunk_events evs2).
    split.
    + rewrite length_cons, Nat2Z.inj_succ, Hcount.
      rewrite (chunk_count_step (f_size blob - offset)) by lia.
      replace (f_size blob - (offset + byteLength chunk))
        with (f_size blob - offset - CHUNK_SIZE) by lia.
      lia.
    + intros [|i] c p Hi.
      * simpl in Hi. injection Hi as <- _. lia.
      * simpl in Hi. destruct (Hitems _ _ _ Hi) as (H1 & H2 & H3).
        split; [done|]. split; [|done].
        rewrite length_cons. intros Hlt'. apply H2. lia.
  - injection H as _ <-.
    change (chunk_events [emit_file_chunk chunk code
              (js_mul (js_div offset (f_size blob)) 100);
              emit_transfer_complete code])
      with [(chunk, js_mul (js_div offset (f_size blob)) 100)].
    split.
    + simpl. rewrite chunk_count_one; lia.
    + intros [|i] c p Hi; [|done].
      simpl in Hi. injection Hi as <- _.
      split; [lia|]. split; [simpl; lia|lia].
Qed.

Lemma offset_before_le (ces : list (list Byte.byte * jsnum)) i c p :
  ces !! i = Some (c, p) →
  0 ≤ offset_before ces i ∧
  offset_before ces i + byteLength c ≤ byteLength (concat ces.*1).
Proof.
  intros Hi. unfold offset_before.
  split; [apply byteLength_nonneg|].
  assert (Hc : concat ces.*1
               = concat (take i ces.*1) ++ c ++ concat (drop (S i) ces.*1)).
  { rewrite <- concat_cons, <- concat_app. f_equal. symmetry.
    apply take_drop_middle. by rewrite list_lookup_fmap, Hi. }
  rewrite Hc, !byteLength_app.
  pose proof (byteLength_nonneg (concat (drop (S i) ces.*1))). lia.
Qed.

Lemma percentage_range offset fileSize :
  0 ≤ offset < fileSize →
  ∃ q, percentage offset fileSize = JNum q ∧ (0 <= q)%Q ∧ (q < 100)%Q.
Proof.
  intros [H0 Hlt]. unfold percentage, js_div.
  destruct (Z.eqb_spec fileSize 0); [lia|]. simpl.
  eexists. split; [done|].
  assert (Hpos : (0 < inject_Z fileSize)%Q)
    by (replace 0%Q with (inject_Z 0) by done; rewrite <- Zlt_Qlt; lia).
  split.
  - apply Qmult_le_0_compat; [|discriminate].
    apply Qle_shift_div_l; [done|]. rewrite Qmult_0_l.
    replace 0%Q with (inject_Z 0) by done. by rewrite <- Zle_Qle.
  - replace 100%Q with (1 * 100)%Q by done.
    apply Qmult_lt_compat_r; [done|].
    apply Qlt_shift_div_r; [done|]. rewrite Qmult_1_l.
    by rewrite <- Zlt_Qlt.
Qed.

Section ChunksOfAFile.

Context (ticks : list (Z * Z)) (st : app).
Context (fd : FileData) (rest : list FileData) (blob : File).
Hypothesis first_file : files st = fd :: rest.
Hypothesis socket_connected : connected st = true.
Hypothesis has_blob : file fd = Some blob.
Hypothesis size_of_blob : size fd = f_size blob.
Hypothesis enough_ticks : size fd ≤ Z.of_nat (length ticks) * CHUNK_SIZE.
Hypothesis some_tick : (1 ≤ length ticks)%nat.

Lemma sendFiles_chunks :
  ∃ st' ces,
    sendFiles ticks st
    = Some (st', emit_file_meta (name fd) (size fd) (type fd) (sessionCode st)
                 :: ((fun cp => emit_file_chunk cp.1 (sessionCode st) cp.2)
                       <$> ces)
                 ++ [emit_transfer_complete (sessionCode st)]) ∧
    concat ces.*1 = f_data blob ∧
    percentage_tagged (size fd) ces ∧
    Z.of_nat (length ces) = chunk_count (size fd) ∧
    ∀ i c p, ces !! i = Some (c, p) →
      byteLength c ≤ CHUNK_SIZE ∧
      (S i < length ces → byteLength c = CHUNK_SIZE)%nat ∧
      (0 < size fd → 0 < byteLength c).
Proof.
  destruct (sendFiles_spec ticks st fd rest blob)
    as (st' & ces & Heq & Hcat & Htag & _); try done.
  exists st', ces. split; [done|]. split; [done|]. split; [done|].
  pose proof Heq as Heq'. unfold sendFiles in Heq'.
  rewrite first_file, socket_connected, has_blob in Heq'. simpl in Heq'.
  destruct (send_loop _ _ _ _ _ _ _) as [[st2 evs2]|] eqn:E; [|done].
  injection Heq' as _ Hevs. rewrite size_of_blob in E.
  pose proof (byteLength_nonneg (f_data blob)) as Hnn.
  apply send_loop_chunking in E as [Hcount Hitems];
    [|unfold f_size; lia|unfold f_size in *; lia].
  rewrite Hevs, chunk_events_emitted in Hcount, Hitems.
  rewrite Z.sub_0_r in Hcount. rewrite size_of_blob. done.
Qed.

(** X16.  Fixed-size chunks.  A file is sent in as many chunks as it
    takes to cover it ([ceil(size / CHUNK_SIZE)], and one chunk for the
    empty file); every chunk but the last has exactly [CHUNK_SIZE] bytes,
    the last has at most that, and no chunk of a non-empty file is
    empty. *)
Theorem sendFiles_chunking :
  ∃ st' evs,
    sendFiles ticks st = Some (st', evs) ∧
    Z.of_nat (length (chunk_events evs)) = chunk_count (size fd) ∧
    ∀ i c p, chunk_events evs !! i = Some (c, p) →
      byteLength c ≤ CHUNK_SIZE ∧
      (S i < length (chunk_events evs) → byteLength c = CHUNK_SIZE)%nat ∧
      (0 < size fd → 0 < byteLength c).
Proof.
  destruct sendFiles_chunks as (st' & ces & Heq & _ & _ & Hcount & Hitems).
  eexists st', _. split; [exact Heq|].
  by rewrite chunk_events_meta, chunk_events_emitted.
Qed.

(** X17.  The progress tag never reaches 100: for a non-empty file every
    tag is a number from 0 (the first chunk) up to, but not including,
    100.  The empty file is sent as a single empty chunk whose tag is
    NaN, the result of [0 / 0]. *)
Theorem progress_tag_range :
  ∃ st' evs,
    sendFiles ticks st = Some (st', evs) ∧
    (0 < size fd →
       ∀ i c p, chunk_events evs !! i = Some (c, p) →
         ∃ q, p = JNum q ∧ (0 <= q)%Q ∧ (q < 100)%Q) ∧
    (size fd = 0 → chunk_events evs = [([], JNaN)]).
Proof.
  destruct sendFiles_chunks
    as (st' & ces & Heq & Hcat & Htag & Hcount & Hitems).
  eexists st', _. split; [exact Heq|].
  rewrite chunk_events_meta, chunk_events_emitted. split.
  - intros Hpos i c p Hi. rewrite (Htag _ _ _ Hi).
    apply percentage_range.
    destruct (offset_before_le ces i c p Hi) as [H0 Hle].
    destruct (Hitems _ _ _ Hi) as (_ & _ & Hne).
    rewrite Hcat in Hle. fold (f_size blob) in Hle.
    rewrite <- size_of_blob in Hle. specialize (Hne Hpos). lia.
  - intros Hz. rewrite Hz in Hcount.
    destruct ces as [|[c p] [|cp2 ces]];
      [vm_compute in Hcount; discriminate| |
       rewrite (chunk_count_one 0) in Hcount
         by (pose proof CHUNK_SIZE_pos; lia);
       simpl in Hcount; lia].
    pose proof (Htag 0%nat c p eq_refl) as Hp.
    rewrite offset_before_0, Hz in Hp.
    assert (Hb : f_data blob = []).
    { rewrite size_of_blob in Hz. unfold f_size, byteLength in Hz.
      destruct (f_data blob); [done|simpl in Hz; lia]. }
    rewrite Hb in Hcat. simpl in Hcat. rewrite app_nil_r in Hcat.
    by rewrite Hcat, Hp.
Qed.

End ChunksOfAFile.

Lemma sendFiles_chunking_witness :
  ∃ st' evs,
    sendFiles ex_ticks (ex_sender ex_small) = Some (st', evs) ∧
    Z.of_nat (length (chunk_events evs)) = chunk_count 3.
Proof.
  destruct (sendFiles_chunking ex_ticks (ex_sender ex_small)
              (newFileData "file-1" ex_small) [] ex_small)
    as (st' & evs & Heq & Hcount & _).
  - reflexivity.
  - reflexivity.
  - reflexivity.
  - reflexivity.
  - vm_compute. discriminate.
  - simpl. lia.
  - exists st', evs. split; [exact Heq|exact Hcount].
Defined.

Lemma progress_tag_range_witness :
  ∃ st' evs,
    sendFiles ex_ticks
      (ex_sender {| f_name := "empty"; f_type := ""; f_data := [] |})
    = Some (st', evs) ∧
    chunk_events evs = [([], JNaN)].
Proof.
  destruct (progress_tag_range ex_ticks
              (ex_sender {| f_name := "empty"; f_type := ""; f_data := [] |})
              (newFileData "file-1"
                 {| f_name := "empty"; f_type := ""; f_data := [] |})
              [] {| f_name := "empty"; f_type := ""; f_data := [] |})
    as (st' & evs & Heq & _ & Hempty).
  - reflexivity.
  - reflexivity.
  - reflexivity.
  - reflexivity.
  - vm_compute. discriminate.
  - simpl. lia.
  - exists st', evs. split; [exact Heq|]. apply Hempty. reflexivity.
Defined.

(** ** Where the sender ends *)

Lemma send_loop_final blob fid code ticks : ∀ offset st st' evs,
  0 ≤ offset ≤ f_size blob →
  send_loop ticks blob fid (f_size blob) code offset st = Some (st', evs) →
  files st' = files st ∧ sessionCode st' = sessionCode st ∧
  app_status st'
  = {| message := "Transfer completed successfully!";
       st_type := ts_completed |} ∧
  (∃ sp, transferProgress st' !! fid
         = Some {| bytes := f_size blob; total := f_size blob; speed := sp |}) ∧
  (speedRef st').2 = f_size blob.
Proof.
  pose proof CHUNK_SIZE_pos as HC.
  induction ticks as [|[now' now] ticks IH]; intros offset st st' evs Ho H;
    [done|].
  cbn [send_loop] in H.
  set (chunk := slice (f_data blob) offset (offset + CHUNK_SIZE)) in *.
  assert (Hlen : byteLength chunk
                 = Z.min CHUNK_SIZE (f_size blob - offset))
    by by apply byteLength_slice.
  destruct (Z.ltb_spec (offset + byteLength chunk) (f_size blob)) as [Hl|Hg].
  - destruct (send_loop ticks _ _ _ _ _ _) as [[st2 evs2]|] eqn:E; [|done].
    injection H as <- _. apply IH in E; [|lia]. exact E.
  - injection H as <- _. simpl.
    assert (Hend : offset + byteLength chunk = f_size blob) by lia.
    rewrite Hend. split; [done|]. split; [done|]. split; [done|].
    split; [|done]. eexists. apply lookup_insert_eq.
Qed.

(** X18.  When [sendFiles] has emitted the file, the status line says
    completed and the progress entry of the file shows all its bytes
    ([bytes] and [total] are both the size); the entry of the file in the
    list is left at [transferring]: nothing marks the sender's own entry
    as completed. *)
Theorem sender_end_state ticks st fd rest blob :
  files st = fd :: rest → connected st = true →
  file fd = Some blob → size fd = f_size blob →
  size fd ≤ Z.of_nat (length ticks) * CHUNK_SIZE → (1 ≤ length ticks)%nat →
  ∃ st' evs,
    sendFiles ticks st = Some (st', evs) ∧
    st_type (app_status st') = ts_completed ∧
    (∃ sp, transferProgress st' !! id fd
           = Some {| bytes := size fd; total := size fd; speed := sp |}) ∧
    length (files st') = length (files st) ∧
    (∃ fd', files st' !! 0%nat = Some fd' ∧ id fd' = id fd ∧
            status fd' = Some transferring) ∧
    (∀ g, g ∈ files st' → status g ≠ Some completed ∨ g ∈ files st).
Proof.
  intros Hf Hc Hb Hsz Hticks H1.
  destruct (sendFiles_spec ticks st fd rest blob Hf Hc Hb Hsz Hticks H1)
    as (st' & ces & Heq & _).
  exists st'. eexists. split; [exact Heq|].
  unfold sendFiles in Heq. rewrite Hf, Hc, Hb in Heq. simpl in Heq.
  destruct (send_loop _ _ _ _ _ _ _) as [[st2 evs2]|] eqn:E; [|done].
  injection Heq as -> _. rewrite Hsz in E.
  pose proof (byteLength_nonneg (f_data blob)) as Hnn.
  apply send_loop_final in E as (Hfiles & _ & Hstatus & Hprog & _);
    [|unfold f_size; lia].
  assert (Hfiles' : files st'
            = (fun g => if decide (id g = id fd)
                        then {| id := id g; name := name g; size := size g;
                                type := type g; file := file g;
                                received := received g; chunks := chunks g;
                                status := Some transferring |}
                        else g) <$> files st).
  { rewrite Hfiles, Hf. simpl. by rewrite Hsz. }
  clear Hfiles. rewrite Hstatus, Hfiles', Hsz. split; [done|].
  split; [done|]. split; [by rewrite length_fmap|].
  split.
  - rewrite Hf. simpl. rewrite decide_True by done. by eexists.
  - intros g Hg. apply list_elem_of_fmap in Hg as (g0 & -> & Hg0).
    case_decide; [left; simpl; discriminate|by right].
Qed.

Lemma sender_end_state_witness :
  ∃ st' evs,
    sendFiles ex_ticks (ex_sender ex_small) = Some (st', evs) ∧
    st_type (app_status st') = ts_completed ∧
    ∃ fd', files st' !! 0%nat = Some fd' ∧ status fd' = Some transferring.
Proof.
  destruct (sender_end_state ex_ticks (ex_sender ex_small)
              (newFileData "file-1" ex_small) [] ex_small)
    as (st' & evs & Heq & Hst & _ & _ & (fd' & Hfd' & _ & Hstatus) & _).
  - reflexivity.
  - reflexivity.
  - reflexivity.
  - reflexivity.
  - vm_compute. discriminate.
  - simpl. lia.
  - exists st', evs. split; [exact Heq|]. split; [exact Hst|].
    exists fd'. split; [exact Hfd'|exact Hstatus].
Defined.

(** ** The receiver as it is registered *)

Lemma listen_nothing_stored toFixed1 e st :
  nothing_stored st → nothing_stored (listen toFixed1 e st).
Proof.
  intros Hn. destruct e; simpl; try exact Hn.
  - intros f Hf. simpl in Hf. apply elem_of_app in Hf as [Hf|Hf].
    + by apply Hn.
    + apply list_elem_of_singleton in Hf as ->. done.
  - intros f Hf. simpl in Hf.
    apply list_elem_of_fmap in Hf as (f0 & -> & Hf0). simpl. by apply Hn.
  - intros f Hf. simpl in Hf. by apply elem_of_nil in Hf.
Qed.

(** X19.  As the listeners are registered (once, with the bindings of
    the first render), the component never stores a received byte:
    whatever reaches the socket, in whatever order, every entry of the
    file list has a zero byte counter and no chunks, and downloading it
    gives an empty blob. *)
Theorem receiver_stores_nothing toFixed1 es :
  ∀ f, f ∈ files (listen_all toFixed1 es initial) →
    received f = Some 0 ∧ chunks f = Some [] ∧
    downloadFile f = Some (name f, type f, []).
Proof.
  assert (Hn : nothing_stored (listen_all toFixed1 es initial)).
  { unfold listen_all. generalize initial, (ltac:(by intros f Hf;
      apply elem_of_nil in Hf) : nothing_stored initial).
    induction es as [|e es IH]; intros st Hst; [done|].
    simpl. apply IH. by apply listen_nothing_stored. }
  intros f Hf. destruct (Hn f Hf) as [Hr Hc].
  split; [done|]. split; [done|]. unfold downloadFile. by rewrite Hc.
Qed.

Lemma receiver_stores_nothing_witness :
  downloadFile
    {| id := "r1"; name := "a.txt"; size := 3; type := "text/plain";
       file := None; received := Some 0; chunks := Some [];
       status := Some transferring |}
  = Some ("a.txt", "text/plain", []).
Proof.
  destruct (receiver_stores_nothing (fun _ => "")
              [ev_file_meta "r1" "a.txt" 3 "text/plain";
               ev_file_chunk 1000 1001 [Byte.x61; Byte.x62; Byte.x63] (JNum 0)]
              {| id := "r1"; name := "a.txt"; size := 3; type := "text/plain";
                 file := None; received := Some 0; chunks := Some [];
                 status := Some transferring |}) as (_ & _ & H).
  - simpl. apply elem_of_cons. by left.
  - exact H.
Defined.

Lemma listen_chunks_keep toFixed1 es st :
  forallb is_file_chunk es = true → listen_all toFixed1 es st = st.
Proof.
  revert st. induction es as [|e es IH]; intros st Hall; [done|].
  simpl in Hall. apply andb_true_iff in Hall as [He Hall].
  destruct e; try discriminate He. simpl. by apply IH.
Qed.

(** X20.  A whole transfer as the receiver sees it: after the
    announcement of a file of any declared size, any number of chunks and
    the completion signal, the status line says completed and the entry
    of the file is marked [completed], with no byte stored. *)
Theorem receiver_completes_empty toFixed1 fileId nm sz ty cs st :
  forallb is_file_chunk cs = true →
  let st' := listen_all toFixed1
               (ev_file_meta fileId nm sz ty :: cs ++ [ev_transfer_complete])
               st in
  app_status st'
  = {| message := "Transfer completed successfully!";
       st_type := ts_completed |} ∧
  length (files st') = S (length (files st)) ∧
  files st' !! length (files st)
  = Some {| id := fileId; name := nm; size := sz; type := ty; file := None;
            received := Some 0; chunks := Some [];
            status := Some completed |}.
Proof.
  intros Hcs st'. unfold st', listen_all.
  cbn [foldl]. rewrite foldl_app.
  match goal with
  | |- context [foldl ?f ?a cs] => change (foldl f a cs) with (listen_all toFixed1 cs a)
  end.
  rewrite listen_chunks_keep by done. simpl.
  split; [done|]. split.
  - rewrite length_fmap, length_app. simpl. lia.
  - rewrite list_lookup_fmap, lookup_app_r by lia.
    by rewrite Nat.sub_diag.
Qed.

Lemma receiver_completes_empty_witness :
  files (listen_all (fun _ => "")
           [ev_file_meta "r1" "a.txt" 3 "text/plain";
            ev_file_chunk 1000 1001 [Byte.x61; Byte.x62; Byte.x63] (JNum 0);
            ev_transfer_complete] initial) !! 0%nat
  = Some {| id := "r1"; name := "a.txt"; size := 3; type := "text/plain";
            file := None; received := Some 0; chunks := Some [];
            status := Some completed |}.
Proof.
  destruct (receiver_completes_empty (fun _ => "") "r1" "a.txt" 3 "text/plain"
              [ev_file_chunk 1000 1001 [Byte.x61; Byte.x62; Byte.x63] (JNum 0)]
              initial eq_refl) as (_ & _ & H).
  exact H.
Defined.

(** [session-expired] leaves no trace of the error it announces:
    the listener sets an error status and then resets the transfer, which
    sets the status again, so the component ends as on the first render,
    with the idle status line, an empty file list, no session code and no
    peer. *)
Lemma session_expired_resets st :
  on_session_expired st
  = {| sessionCode := sessionCode initial; app_status := app_status initial;
       files := files initial; transferProgress := transferProgress initial;
       peerConnected := peerConnected initial;
       speedRef := speedRef st; connected := connected st |} ∧
  st_type (app_status (on_session_expired st)) = ts_idle ∧
  st_type (app_status (on_session_expired st)) ≠ ts_error.
Proof. done. Qed.

(** ** Removing an entry *)

(** X21.  [removeFile] removes every entry that has the identifier,
    keeps the others, and undoes the selection of a file: when no entry
    has the identifier drawn for a newly selected file, removing that
    identifier gives back the list from before the selection. *)
Theorem removeFile_undoes_select uuid f fileId st :
  (∀ g, g ∈ files (removeFile fileId st) ↔ g ∈ files st ∧ id g ≠ fileId) ∧
  (f_size f ≤ MAX_FILE_SIZE → (∀ g, g ∈ files st → id g ≠ uuid 0%nat) →
   files (removeFile (uuid 0%nat) (handleFileSelect uuid [f] st)) = files st).
Proof.
  split.
  - intros g. simpl. by rewrite list_elem_of_filter, (comm and).
  - intros Hmax Hfresh. unfold handleFileSelect. simpl.
    destruct (Z.ltb_spec MAX_FILE_SIZE (f_size f)); [lia|]. simpl.
    rewrite filter_app, filter_cons_False, filter_nil, app_nil_r
      by (simpl; by intros []).
    induction (files st) as [|g gs IH]; [done|].
    rewrite filter_cons_True by (apply Hfresh, elem_of_cons; by left).
    f_equal. apply IH. intros g' Hg'. apply Hfresh, elem_of_cons. by right.
Qed.

Lemma removeFile_undoes_select_witness :
  files (removeFile "u" (handleFileSelect (fun _ => "u") [ex_small] initial))
  = [].
Proof.
  destruct (removeFile_undoes_select (fun _ => "u") ex_small "u" initial)
    as [_ H].
  apply H.
  - vm_compute. discriminate.
  - intros g Hg. by apply elem_of_nil in Hg.
Defined.

(** ** The labels *)

Ltac q_arith := unfold Qle, Qlt; simpl; lia.

(** X22.  [calculateSpeed] never divides by zero: when no time has
    passed since [startTime] (or the clock went back) it answers with the
    fixed zero label.  Otherwise, for a non-negative byte count, an MB/s
    label shows at least 1 and a KB/s label shows a number from 0 up to,
    but not including, 1024. *)
Theorem calculateSpeed_label now bytes startTime :
  (now ≤ startTime → calculateSpeed now bytes startTime = zero_KBs) ∧
  (startTime < now → 0 ≤ bytes →
     match calculateSpeed now bytes startTime with
     | zero_KBs => False
     | MBs x => (1 <= x)%Q
     | KBs x => (0 <= x)%Q ∧ (x < 1024)%Q
     end).
Proof.
  unfold calculateSpeed. split.
  - intros Hle.
    assert (H : Qle_bool (inject_Z (now - startTime) / 1000) 0 = true).
    { apply Qle_bool_iff. apply Qle_shift_div_r; [done|]. q_arith. }
    by rewrite H.
  - intros Hlt Hb.
    set (elapsed := (inject_Z (now - startTime) / 1000)%Q).
    assert (He : (0 < elapsed)%Q).
    { apply Qlt_shift_div_l; [done|]. q_arith. }
    destruct (Qle_bool elapsed 0) eqn:E.
    { apply Qle_bool_iff in E. by apply Qle_not_lt in E. }
    set (speed := (inject_Z bytes / elapsed)%Q).
    assert (Hs : (0 <= speed)%Q).
    { apply Qle_shift_div_l; [done|]. rewrite Qmult_0_l. q_arith. }
    destruct (Qle_bool (inject_Z (1024 * 1024)) speed) eqn:E2.
    + apply Qle_bool_iff in E2.
      apply Qle_shift_div_l; [done|]. by rewrite Qmult_1_l.
    + assert (Hl : (speed < inject_Z (1024 * 1024))%Q).
      { apply Qnot_le_lt. intros Hc. apply Qle_bool_iff in Hc. congruence. }
      split.
      * apply Qle_shift_div_l; [done|]. by rewrite Qmult_0_l.
      * apply Qlt_shift_div_r; [done|]. exact Hl.
Qed.

Lemma calculateSpeed_label_witness :
  calculateSpeed 1000 65536 1000 = zero_KBs ∧
  match calculateSpeed 2000 65536 1000 with
  | zero_KBs => False
  | MBs x => (1 <= x)%Q
  | KBs x => (0 <= x)%Q ∧ (x < 1024)%Q
  end.
Proof.
  destruct (calculateSpeed_label 1000 65536 1000) as [Hz _].
  destruct (calculateSpeed_label 2000 65536 1000) as [_ Hl].
  split; [apply Hz; lia|apply Hl; lia].
Defined.

(** X23.  [formatFileSize] picks the unit so that the number shown is
    at least 1 and below 1024: bytes below 1024 are shown as they are,
    then KB and MB each cover a factor of 1024, and everything from
    1 GiB on is shown in GB; a size within the 2 GiB limit is shown as at
    most 2 GB. *)
Theorem formatFileSize_unit bytes :
  0 ≤ bytes →
  match formatFileSize_parts bytes with
  | (unit_B, x) => x = inject_Z bytes ∧ bytes < 1024
  | (unit_KB, x) => 1024 ≤ bytes < 1024 * 1024 ∧ (1 <= x)%Q ∧ (x < 1024)%Q
  | (unit_MB, x) =>
      1024 * 1024 ≤ bytes < 1024 * 1024 * 1024 ∧ (1 <= x)%Q ∧ (x < 1024)%Q
  | (unit_GB, x) =>
      1024 * 1024 * 1024 ≤ bytes ∧ (1 <= x)%Q ∧
      (bytes ≤ MAX_FILE_SIZE → (x <= 2)%Q)
  end.
Proof.
  intros H0. unfold formatFileSize_parts.
  destruct (Z.ltb_spec bytes 1024); [done|].
  destruct (Z.ltb_spec bytes (1024 * 1024)).
  { split; [lia|]. split.
    - apply Qle_shift_div_l; [done|]. q_arith.
    - apply Qlt_shift_div_r; [done|]. q_arith. }
  destruct (Z.ltb_spec bytes (1024 * 1024 * 1024)).
  { split; [lia|]. split.
    - apply Qle_shift_div_l; [done|]. q_arith.
    - apply Qlt_shift_div_r; [done|]. q_arith. }
  split; [lia|]. split.
  - apply Qle_shift_div_l; [done|]. q_arith.
  - intros Hmax. apply Qle_shift_div_r; [done|].
    unfold MAX_FILE_SIZE in Hmax. q_arith.
Qed.

Lemma formatFileSize_unit_witness :
  match formatFileSize_parts 128000 with
  | (unit_KB, x) => (1 <= x)%Q ∧ (x < 1024)%Q
  | _ => False
  end.
Proof.
  pose proof (formatFileSize_unit 128000 ltac:(lia)) as H.
  change (formatFileSize_parts 128000)
    with (unit_KB, (inject_Z 128000 / 1024)%Q) in *.
  exact (proj2 H).
Defined.

End Transfer.

(** ** A transfer through the relay *)

Module EndToEnd.
Import Wire.



Lemma reject_chunk_inputs sock code (ces : list (list Byte.byte * jsnum)) sst :
  Server.sessions sst !! code = None →
  Server.run (to_input sock
                <$> ((fun cp => Client.emit_file_chunk cp.1 code cp.2) <$> ces))
             sst
  = Some (sst, replicate (length ces) (Server.Emit sock Server.invalid_session)).
Proof.
  intros Hs. induction ces as [|[c p] ces IH]; [done|].
  rewrite !fmap_cons. cbn [Server.run to_input Server.step].
  unfold Server.on_file_chunk. rewrite Hs, IH. done.
Qed.

Section Relayed.

Context (ticks : list (Z * Z)) (st : Client.app).
Context (fd : Client.FileData) (rest : list Client.FileData).
Context (blob : Client.File) (sock : string) (sst : Server.state).
Hypothesis first_file : Client.files st = fd :: rest.
Hypothesis socket_connected : Client.connected st = true.
Hypothesis has_blob : Client.file fd = Some blob.
Hypothesis size_of_blob : Client.size fd = Client.f_size blob.
Hypothesis enough_ticks :
  Client.size fd ≤ Z.of_nat (length ticks) * Client.CHUNK_SIZE.
Hypothesis some_tick : (1 ≤ length ticks)%nat.


(** X25.  A transfer whose session is gone (it expired or was torn down)
    reaches nobody: the announcement and every chunk are answered to the
    sender with [invalid-session], the completion signal is dropped
    without an answer, nothing goes to any room and the state of the
    server does not change. *)
Theorem transfer_without_session :
  Server.sessions sst !! Client.sessionCode st = None →
  ∃ st' evs,
    Client.sendFiles ticks st = Some (st', evs) ∧
    Server.run (to_input sock <$> evs) sst
    = Some (sst, replicate (length evs - 1)
                           (Server.Emit sock Server.invalid_session)) ∧
    relayed_chunks (replicate (length evs - 1)
                              (Server.Emit sock Server.invalid_session)) = [].
Proof.
  intros Hs.
  destruct (Transfer.sendFiles_spec ticks st fd rest blob)
    as (st' & ces & Heq & Hcat & _); try done.
  eexists st', _. split; [exact Heq|].
  set (code := Client.sessionCode st) in *.
  rewrite !fmap_cons, !fmap_app. split.
  - cbn [Server.run to_input Server.step]. unfold Server.on_file_meta.
    rewrite Hs.
    erewrite Relay.run_app.
    + f_equal. f_equal. simpl.
      rewrite length_app, length_fmap. simpl.
      replace (length ces + 1 - 0)%nat with (S (length ces)) by lia.
      simpl. by rewrite app_nil_r.
    + by eapply reject_chunk_inputs.
    + simpl. unfold Server.on_transfer_complete. by rewrite Hs.
  - generalize (length (Client.emit_file_meta (Client.name fd) (Client.size fd)
        (Client.type fd) code
      :: ((fun cp => Client.emit_file_chunk cp.1 code cp.2) <$> ces)
         ++ [Client.emit_transfer_complete code]) - 1)%nat.
    intros n. induction n as [|n IH]; [done|]. exact IH.
Qed.

End Relayed.


Lemma transfer_without_session_witness :
  ∃ st' evs,
    Client.sendFiles Client.ex_ticks (Client.ex_sender Client.ex_small)
    = Some (st', evs) ∧
    Server.run (to_input "sA" <$> evs) (Server.init [])
    = Some (Server.init [],
            replicate (length evs - 1)
                      (Server.Emit "sA" Server.invalid_session)).
Proof.
  destruct (transfer_without_session Client.ex_ticks
              (Client.ex_sender Client.ex_small)
              (Client.newFileData "file-1" Client.ex_small) []
              Client.ex_small "sA" (Server.init []))
    as (st' & evs & Heq & Hrun & _).
  - reflexivity.
  - reflexivity.
  - reflexivity.
  - reflexivity.
  - vm_compute. discriminate.
  - simpl. lia.
  - reflexivity.
  - exists st', evs. split; [exact Heq|exact Hrun].
Defined.

End EndToEnd.
